(** * kivy.input.motionevent: the MotionEvent class

    A shallow embedding of [src/kivy/input/motionevent.py].  A MotionEvent is
    a Python object: its attributes live in a dictionary from names to
    dynamically typed values, the two lists it mutates in place
    ([grab_list], [push_attrs_stack]) live in a store of mutable objects and
    are held by reference, and every method is a computation that threads
    this state and either returns or raises, keeping the state reached at the
    raise. *)

From Stdlib Require Import ZArith Floats.
From stdpp Require Import gmap strings list fin_maps.

Set Warnings "-register-all".
Local Open Scope Z_scope.

(** ** Values and objects *)

(** A location of the store of mutable objects. *)
Definition loc := nat.

(** The identity of a weak-referenceable object (a widget claiming the
    event). *)
Definition claimant := positive.

(** Python values.  Floats are IEEE 754 binary64, as Python's are.  [VRef]
    is a reference to a mutable object of the store, [VWeak c] is
    [weakref.ref(c)] for a live claimant [c], [VList] is a list that has a
    single holder and is not mutated once built (the values of a snapshot),
    and is therefore kept inline. *)
Inductive Value :=
| VNone
| VBool (b : bool)
| VInt (z : Z)
| VFloat (f : float)
| VStr (s : string)
| VTuple (vs : list Value)
| VList (vs : list Value)
| VRef (l : loc)
| VWeak (c : claimant).

(** Mutable objects: lists, and the [EnhancedDictionnary] of [ud]. *)
Inductive Obj :=
| OList (items : list Value)
| ODict (items : list (Value * Value)).

Inductive pyclass :=
| MotionEvent
| Subclass (name : string).

Inductive exn :=
| Exception (msg : string)
| NotImplementedError (msg : string)
| AttributeError (name : string)
| TypeError
| ValueError
| IndexError
| OverflowError.

(** The two errors of [grab], under the names the specification gives
    them. *)
Definition NotGrabbable : exn :=
  Exception "Grab work only for Touch Motion Event.".
Definition AlreadyExclusive : exn :=
  Exception "Cannot grab the touch, touch are exclusive".
(** [list.pop()] on an empty list, the specification's
    [EmptyStackUnderflow]. *)
Definition EmptyStackUnderflow : exn := IndexError.

(** ** State *)

(** What a method of the event can read and write: the class of [self],
    the attribute dictionary of [self], the store of mutable objects, the
    class attribute [MotionEvent.__uniq_id], and the reading [time()]
    returns. *)
Record State := mkState {
  self_class : pyclass;
  attrs : gmap string Value;
  heap : list Obj;
  uniq_id : Z;
  clock : float;
}.

Definition set_attrs (a : gmap string Value) (s : State) : State :=
  mkState (self_class s) a (heap s) (uniq_id s) (clock s).
Definition set_heap (h : list Obj) (s : State) : State :=
  mkState (self_class s) (attrs s) h (uniq_id s) (clock s).
Definition set_uniq_id (u : Z) (s : State) : State :=
  mkState (self_class s) (attrs s) (heap s) u (clock s).
Definition set_clock (t : float) (s : State) : State :=
  mkState (self_class s) (attrs s) (heap s) (uniq_id s) t.

(** ** Computations *)

Inductive Outcome (A : Type) :=
| Returns (a : A) (s : State)
| Raises (e : exn) (s : State).
Arguments Returns {A} a s.
Arguments Raises {A} e s.

Definition state_of {A} (o : Outcome A) : State :=
  match o with Returns _ s => s | Raises _ s => s end.

Definition M (A : Type) : Type := State → Outcome A.

Definition ret {A} (a : A) : M A := λ s, Returns a s.
Definition bind {A B} (m : M A) (k : A → M B) : M B :=
  λ s, match m s with
       | Returns a s' => k a s'
       | Raises e s' => Raises e s'
       end.
Definition raise {A} (e : exn) : M A := λ s, Raises e s.

#[global] Instance M_ret : MRet M := @ret.
#[global] Instance M_bind : MBind M := λ A B k m, bind m k.

(** An expression that yields a value or raises, without touching the
    state. *)
Definition lift {A} (r : exn + A) : M A :=
  λ s, match r with inl e => Raises e s | inr a => Returns a s end.

Definition getattr (name : string) : M Value :=
  λ s, match attrs s !! name with
       | Some v => Returns v s
       | None => Raises (AttributeError name) s
       end.

Definition setattr (name : string) (v : Value) : M unit :=
  λ s, Returns tt (set_attrs (<[name := v]> (attrs s)) s).

(** [time()] *)
Definition time : M Value := λ s, Returns (VFloat (clock s)) s.

(** A new mutable object. *)
Definition alloc (o : Obj) : M Value :=
  λ s, Returns (VRef (length (heap s))) (set_heap (heap s ++ [o]) s).

(** ** Expressions *)

Definition is_None (v : Value) : bool :=
  match v with VNone => true | _ => false end.

(** Truth value of an object, as [if v:] and [not v] test it.  References
    are to lists or dictionaries of the store and are looked up there. *)
Definition truthy (v : Value) : M bool :=
  λ s, match v with
       | VNone => Returns false s
       | VBool b => Returns b s
       | VInt z => Returns (negb (z =? 0)) s
       | VFloat f => Returns (negb (PrimFloat.eqb f 0)) s
       | VStr t => Returns (negb (String.eqb t EmptyString)) s
       | VTuple vs | VList vs => Returns (negb (Nat.eqb (length vs) 0)) s
       | VRef l =>
           match heap s !! l with
           | Some (OList vs) => Returns (negb (Nat.eqb (length vs) 0)) s
           | Some (ODict vs) => Returns (negb (Nat.eqb (length vs) 0)) s
           | None => Returns true s
           end
       | VWeak _ => Returns true s
       end.

(** Numbers: [bool] is a subclass of [int]. *)
Inductive number :=
| NInt (z : Z)
| NFloat (f : float).

Definition as_number (v : Value) : option number :=
  match v with
  | VBool b => Some (NInt (Z.b2z b))
  | VInt z => Some (NInt z)
  | VFloat f => Some (NFloat f)
  | _ => None
  end.

(** Conversion of an [int] to the nearest float, [OverflowError] when it is
    out of range. *)
Definition float_of_Z (z : Z) : exn + float :=
  let f := SF2Prim (binary_normalize prec emax z 0 false) in
  if is_infinity f then inl OverflowError else inr f.

Definition float_of_number (n : number) : exn + float :=
  match n with
  | NInt z => float_of_Z z
  | NFloat f => inr f
  end.

Definition arith (fz : Z → Z → Z) (ff : float → float → float)
    (a b : Value) : exn + Value :=
  match as_number a, as_number b with
  | Some (NInt x), Some (NInt y) => inr (VInt (fz x y))
  | Some x, Some y =>
      match float_of_number x, float_of_number y with
      | inr fx, inr fy => inr (VFloat (ff fx fy))
      | inl e, _ => inl e
      | _, inl e => inl e
      end
  | _, _ => inl TypeError
  end.

(** [a - b] and [a * b] on numbers; [TypeError] on [None] and on the other
    values (the repetition of a sequence by [*] is not modelled). *)
Definition py_sub : Value → Value → exn + Value := arith Z.sub PrimFloat.sub.
Definition py_mul : Value → Value → exn + Value := arith Z.mul PrimFloat.mul.

(** [float(w)]: the screen size and the perspective divisor are given as
    floats, on which [float] is the identity. *)
Definition py_float (w : float) : Value := VFloat w.

(** A call [transform(a, b)] of a caller-supplied planar mapping.  The
    mapping is a function on float coordinates that returns a pair; applied
    to anything else (the [None] of a coordinate that was never set) the
    call raises [TypeError], as the arithmetic of such a mapping does. *)
Definition call_transform (transform : float → float → float * float)
    (a b : Value) : exn + Value * Value :=
  match a, b with
  | VFloat x, VFloat y =>
      let r := transform x y in inr (VFloat (fst r), VFloat (snd r))
  | _, _ => inl TypeError
  end.

(** [v == weakref.ref(c)] for a live claimant [c]: weak references compare
    by their referents, and nothing else equals a weak reference. *)
Definition eq_weakref (c : claimant) (v : Value) : bool :=
  match v with
  | VWeak c' => Pos.eqb c' c
  | _ => false
  end.

(** ** Lists of the store *)

(** The list a method call [lst.method(...)] works on; a value that has no
    such method raises [AttributeError]. *)
Definition read_list (method : string) (lst : Value) : M (loc * list Value) :=
  λ s, match lst with
       | VRef l =>
           match heap s !! l with
           | Some (OList vs) => Returns (l, vs) s
           | _ => Raises (AttributeError method) s
           end
       | _ => Raises (AttributeError method) s
       end.

Definition write_list (l : loc) (vs : list Value) : M unit :=
  λ s, Returns tt (set_heap (<[l := OList vs]> (heap s)) s).

(** [lst.append(v)] *)
Definition list_append (lst v : Value) : M unit :=
  '(l, vs) ← read_list "append" lst;
  write_list l (vs ++ [v]).

(** [lst.pop()]: removes and returns the last item, [IndexError] on an empty
    list, which is left as it is. *)
Definition list_pop (lst : Value) : M Value :=
  '(l, vs) ← read_list "pop" lst;
  match last vs with
  | None => raise IndexError
  | Some v => write_list l (removelast vs);; ret v
  end.

(** Removal of the first item equal to [weakref.ref(c)]. *)
Fixpoint remove_first (c : claimant) (vs : list Value) : list Value :=
  match vs with
  | [] => []
  | v :: vs' => if eq_weakref c v then vs' else v :: remove_first c vs'
  end.

(** [weakref.ref(c) in lst], on a list, a tuple or the keys of a
    dictionary; [TypeError] on a value that is not a container. *)
Definition list_contains (lst : Value) (c : claimant) : M bool :=
  λ s, match lst with
       | VRef l =>
           match heap s !! l with
           | Some (OList vs) => Returns (existsb (eq_weakref c) vs) s
           | Some (ODict kvs) => Returns (existsb (eq_weakref c) kvs.*1) s
           | None => Raises TypeError s
           end
       | VTuple vs | VList vs => Returns (existsb (eq_weakref c) vs) s
       | _ => Raises TypeError s
       end.

(** [lst.remove(weakref.ref(c))] *)
Definition list_remove (lst : Value) (c : claimant) : M unit :=
  '(l, vs) ← read_list "remove" lst;
  if existsb (eq_weakref c) vs then write_list l (remove_first c vs)
  else raise ValueError.

(** ** The class MotionEvent *)

(** The payload [args] a provider hands to [__init__] and [move]. *)
Record Args := mkArgs {
  arg_sx : option float;
  arg_sy : option float;
  arg_sz : option float;
  arg_is_touch : option bool;
}.

Definition no_args : Args := mkArgs None None None None.

(** [depack(self, args)] *)
Definition depack (args : Args) : M unit :=
  osx ← getattr "osx";
  (if is_None osx then
     sx ← getattr "sx"; setattr "psx" sx;; setattr "osx" sx;;
     sy ← getattr "sy"; setattr "psy" sy;; setattr "osy" sy;;
     sz ← getattr "sz"; setattr "psz" sz;; setattr "osz" sz
   else ret tt);;
  sx ← getattr "sx"; psx ← getattr "psx";
  dsx ← lift (py_sub sx psx); setattr "dsx" dsx;;
  sy ← getattr "sy"; psy ← getattr "psy";
  dsy ← lift (py_sub sy psy); setattr "dsy" dsy;;
  sz ← getattr "sz"; psz ← getattr "psz";
  dsz ← lift (py_sub sz psz); setattr "dsz" dsz.

Definition assign (name : string) (v : option Value) : M unit :=
  match v with
  | Some v => setattr name v
  | None => ret tt
  end.

(** Modelled from the spec: the [depack] of the provider subclasses, which
    are not among the sources.  [MotionEvent] is abstract, so the
    [self.depack(args)] of [__init__] and [move] runs the override of a
    subclass: it stores the fields the payload supplies (the normalized
    coordinates, and whether the event is a touch), fields the payload does
    not supply keep their values, and it ends with the [depack] of
    [MotionEvent].  A subclass without an override is the payload
    [no_args]. *)
Definition provider_depack (args : Args) : M unit :=
  assign "is_touch" (VBool <$> arg_is_touch args);;
  assign "sx" (VFloat <$> arg_sx args);;
  assign "sy" (VFloat <$> arg_sy args);;
  assign "sz" (VFloat <$> arg_sz args);;
  depack args.

(** The default of [push_attrs]. *)
Definition default_push_attrs : list string :=
  ["x"; "y"; "z"; "dx"; "dy"; "dz"; "ox"; "oy"; "oz"; "px"; "py"; "pz";
   "pos"]%string.

(** [__init__(self, device, id, args)], run on the new object: no attribute
    yet. *)
Definition __init__ (device id : Value) (args : Args) : M unit :=
  λ s,
  match self_class s with
  | MotionEvent =>
      Raises (NotImplementedError "class MotionEvent is abstract") s
  | Subclass _ =>
   (let s := set_uniq_id (uniq_id s + 1) s in
    (setattr "is_touch" (VBool false);;
     stack ← alloc (OList []); setattr "push_attrs_stack" stack;;
     setattr "push_attrs" (VTuple (VStr <$> default_push_attrs));;
     setattr "uid" (VInt (uniq_id s));;
     setattr "device" device;;
     grab_list ← alloc (OList []); setattr "grab_list" grab_list;;
     setattr "grab_exclusive_class" VNone;;
     setattr "grab_state" (VBool false);;
     setattr "grab_current" VNone;;
     profile ← alloc (OList []); setattr "profile" profile;;
     setattr "id" id;;
     setattr "shape" VNone;;
     setattr "sx" (VFloat 0);;
     setattr "sy" (VFloat 0);;
     setattr "sz" (VFloat 0);;
     setattr "osx" VNone;;
     setattr "osy" VNone;;
     setattr "osz" VNone;;
     setattr "psx" VNone;;
     setattr "psy" VNone;;
     setattr "psz" VNone;;
     setattr "dsx" VNone;;
     setattr "dsy" VNone;;
     setattr "dsz" VNone;;
     setattr "x" (VFloat 0);;
     setattr "y" (VFloat 0);;
     setattr "z" (VFloat 0);;
     setattr "ox" VNone;;
     setattr "oy" VNone;;
     setattr "oz" VNone;;
     setattr "px" VNone;;
     setattr "py" VNone;;
     setattr "pz" VNone;;
     setattr "dx" VNone;;
     setattr "dy" VNone;;
     setattr "dz" VNone;;
     setattr "pos" (VTuple [VFloat 0; VFloat 0]);;
     now ← time; setattr "time_start" now;;
     time_start ← getattr "time_start"; setattr "time_update" time_start;;
     setattr "time_end" (VInt (-1));;
     setattr "is_double_tap" (VBool false);;
     setattr "double_tap_time" (VInt 0);;
     ud ← alloc (ODict []); setattr "ud" ud;;
     provider_depack args) s)
  end.

(** [grab(self, class_instance, exclusive=False)] *)
Definition grab (class_instance : claimant) (exclusive : bool) : M unit :=
  is_touch ← getattr "is_touch";
  t ← truthy is_touch;
  (if negb t then raise NotGrabbable else ret tt);;
  grab_exclusive_class ← getattr "grab_exclusive_class";
  (if negb (is_None grab_exclusive_class) then raise AlreadyExclusive
   else ret tt);;
  let class_instance := VWeak class_instance in
  (if exclusive then setattr "grab_exclusive_class" class_instance
   else ret tt);;
  grab_list ← getattr "grab_list";
  list_append grab_list class_instance.

(** [ungrab(self, class_instance)] *)
Definition ungrab (class_instance : claimant) : M unit :=
  grab_exclusive_class ← getattr "grab_exclusive_class";
  (if eq_weakref class_instance grab_exclusive_class
   then setattr "grab_exclusive_class" VNone
   else ret tt);;
  grab_list ← getattr "grab_list";
  found ← list_contains grab_list class_instance;
  if (found : bool) then
    grab_list ← getattr "grab_list";
    list_remove grab_list class_instance
  else ret tt.

(** [move(self, args)] *)
Definition move (args : Args) : M unit :=
  x ← getattr "x"; setattr "px" x;;
  y ← getattr "y"; setattr "py" y;;
  z ← getattr "z"; setattr "pz" z;;
  sx ← getattr "sx"; setattr "psx" sx;;
  sy ← getattr "sy"; setattr "psy" sy;;
  sz ← getattr "sz"; setattr "psz" sz;;
  now ← time; setattr "time_update" now;;
  provider_depack args.

(** [scale_for_screen(self, w, h, p=None, rotation=0)] *)
Definition scale_for_screen (w h : float) (p : option float) (rotation : Z)
    : M unit :=
  sx ← getattr "sx"; sy ← getattr "sy";
  (if rotation =? 0 then
     x ← lift (py_mul sx (py_float w)); setattr "x" x;;
     y ← lift (py_mul sy (py_float h)); setattr "y" y
   else if rotation =? 90 then
     sy' ← lift (py_sub (VInt 1) sx);
     let sx := sy in let sy := sy' in
     x ← lift (py_mul sx (py_float h)); setattr "x" x;;
     y ← lift (py_mul sy (py_float w)); setattr "y" y
   else if rotation =? 180 then
     sx' ← lift (py_sub (VInt 1) sx);
     sy' ← lift (py_sub (VInt 1) sy);
     let sx := sx' in let sy := sy' in
     x ← lift (py_mul sx (py_float w)); setattr "x" x;;
     y ← lift (py_mul sy (py_float h)); setattr "y" y
   else if rotation =? 270 then
     sx' ← lift (py_sub (VInt 1) sy);
     let sy := sx in let sx := sx' in
     x ← lift (py_mul sx (py_float h)); setattr "x" x;;
     y ← lift (py_mul sy (py_float w)); setattr "y" y
   else ret tt);;
  (match p with
   | Some p =>
       t ← truthy (py_float p);
       if (t : bool) then
         sz ← getattr "sz";
         z ← lift (py_mul sz (py_float p)); setattr "z" z
       else ret tt
   | None => ret tt
   end);;
  ox ← getattr "ox";
  (if is_None ox then
     x ← getattr "x"; setattr "px" x;; setattr "ox" x;;
     y ← getattr "y"; setattr "py" y;; setattr "oy" y;;
     z ← getattr "z"; setattr "pz" z;; setattr "oz" z
   else ret tt);;
  x ← getattr "x"; px ← getattr "px";
  dx ← lift (py_sub x px); setattr "dx" dx;;
  y ← getattr "y"; py ← getattr "py";
  dy ← lift (py_sub y py); setattr "dy" dy;;
  z ← getattr "z"; pz ← getattr "pz";
  dz ← lift (py_sub z pz); setattr "dz" dz;;
  x ← getattr "x"; y ← getattr "y";
  setattr "pos" (VTuple [x; y]).

(** The items of a tuple or of an inline list, as iteration, [len] and
    indexing see them. *)
Definition items (v : Value) : exn + list Value :=
  match v with
  | VTuple vs | VList vs => inr vs
  | _ => inl TypeError
  end.

(** [v[i]] *)
Definition index (v : Value) (i : nat) : exn + Value :=
  match items v with
  | inr vs => match vs !! i with Some x => inr x | None => inl IndexError end
  | inl e => inl e
  end.

(** An attribute name handed to [getattr] or [setattr] is a string. *)
Definition as_str (v : Value) : exn + string :=
  match v with
  | VStr name => inr name
  | _ => inl TypeError
  end.

(** [[getattr(self, x) for x in attrs]] *)
Fixpoint getattrs (attrs : list Value) : M (list Value) :=
  match attrs with
  | [] => ret []
  | x :: attrs' =>
      name ← lift (as_str x);
      v ← getattr name;
      vs ← getattrs attrs';
      ret (v :: vs)
  end.

(** [push(self, attrs=None)] *)
Definition push (attrs : option (list string)) : M unit :=
  attrs ← match attrs with
          | None => getattr "push_attrs"
          | Some names => ret (VTuple (VStr <$> names))
          end;
  names ← lift (items attrs);
  values ← getattrs names;
  stack ← getattr "push_attrs_stack";
  list_append stack (VTuple [attrs; VList values]).

(** [for i in is: body(i)] *)
Fixpoint for_each (indices : list nat) (body : nat → M unit) : M unit :=
  match indices with
  | [] => ret tt
  | i :: indices' => body i;; for_each indices' body
  end.

(** [attrs, values = top] *)
Definition unpack2 (top : Value) : exn + Value * Value :=
  match items top with
  | inr [a; b] => inr (a, b)
  | inr _ => inl ValueError
  | inl e => inl e
  end.

(** [pop(self)] *)
Definition pop : M unit :=
  stack ← getattr "push_attrs_stack";
  top ← list_pop stack;
  '(attrs, values) ← lift (unpack2 top);
  names ← lift (items attrs);
  for_each (seq 0 (length names)) (λ i,
    name ← lift (index attrs i);
    v ← lift (index values i);
    name ← lift (as_str name);
    setattr name v).

(** [apply_transform_2d(self, transform)] *)
Definition apply_transform_2d (transform : float → float → float * float)
    : M unit :=
  x ← getattr "x"; y ← getattr "y";
  '(x', y') ← lift (call_transform transform x y);
  setattr "x" x';; setattr "y" y';; setattr "pos" (VTuple [x'; y']);;
  px ← getattr "px"; py ← getattr "py";
  '(px', py') ← lift (call_transform transform px py);
  setattr "px" px';; setattr "py" py';;
  ox ← getattr "ox"; oy ← getattr "oy";
  '(ox', oy') ← lift (call_transform transform ox oy);
  setattr "ox" ox';; setattr "oy" oy';;
  x ← getattr "x"; px ← getattr "px";
  dx ← lift (py_sub x px); setattr "dx" dx;;
  y ← getattr "y"; py ← getattr "py";
  dy ← lift (py_sub y py); setattr "dy" dy.

(** [update_time_end(self)] *)
Definition update_time_end : M unit :=
  now ← time; setattr "time_end" now.

(** ** Histories of an event *)

(** The calls the claims range over. *)
Inductive Op :=
| OpDepack (args : Args)
| OpMove (args : Args)
| OpScale (w h : float) (p : option float) (rotation : Z)
| OpTransform (transform : float → float → float * float)
| OpGrab (class_instance : claimant) (exclusive : bool)
| OpUngrab (class_instance : claimant)
| OpPush
| OpPop.

Definition run (op : Op) : M unit :=
  match op with
  | OpDepack args => provider_depack args
  | OpMove args => move args
  | OpScale w h p rotation => scale_for_screen w h p rotation
  | OpTransform transform => apply_transform_2d transform
  | OpGrab c exclusive => grab c exclusive
  | OpUngrab c => ungrab c
  | OpPush => push None
  | OpPop => pop
  end.

(** The object [__init__] starts from: no attribute, an empty store. *)
Definition new_object (cls : pyclass) (counter : Z) (now : float) : State :=
  mkState cls ∅ [] counter now.

(** The states of an event a provider constructed, after any number of
    calls, each of which returns or raises, with the clock running between
    the calls. *)
Inductive reachable : State → Prop :=
| reach_init cls counter now device id args s :
    __init__ device id args (new_object cls counter now) = Returns tt s →
    reachable s
| reach_call op s :
    reachable s → reachable (state_of (run op s))
| reach_tick now s :
    reachable s → reachable (set_clock now s).

(** * Well-formed events *)

(** The attribute dictionary viewed through a name. *)
Definition attr (s : State) (name : string) : option Value :=
  attrs s !! name.

Definition float_attr (a : gmap string Value) (name : string) : Prop :=
  ∃ f, a !! name = Some (VFloat f).

Definition unset3 (a : gmap string Value) (n1 n2 n3 : string) : Prop :=
  a !! n1 = Some VNone ∧ a !! n2 = Some VNone ∧ a !! n3 = Some VNone.

Definition float3 (a : gmap string Value) (n1 n2 n3 : string) : Prop :=
  float_attr a n1 ∧ float_attr a n2 ∧ float_attr a n3.

(** The screen attributes, which are the default push set: the current
    position is numeric and cached in [pos]; origin and previous position
    are unset or numeric, and the previous position is set once the origin
    is. *)
Record screen_ok (a : gmap string Value) : Prop := mk_screen_ok {
  scr_cur : float3 a "x" "y" "z";
  scr_pos : ∃ x y,
    a !! "x" = Some x ∧ a !! "y" = Some y ∧ a !! "pos" = Some (VTuple [x; y]);
  scr_delta : is_Some (a !! "dx") ∧ is_Some (a !! "dy") ∧ is_Some (a !! "dz");
  scr_seeded :
    (unset3 a "ox" "oy" "oz" ∧ unset3 a "px" "py" "pz") ∨
    (unset3 a "ox" "oy" "oz" ∧ float3 a "px" "py" "pz") ∨
    (float3 a "ox" "oy" "oz" ∧ float3 a "px" "py" "pz");
}.

(** The snapshot [push()] takes of the attributes [a]: the default names
    and their values. *)
Definition snapshot_of (a : gmap string Value) : Value :=
  VTuple [VTuple (VStr <$> default_push_attrs);
          VList ((λ name, default VNone (a !! name)) <$> default_push_attrs)].

(** A snapshot taken by [push()] of well-formed screen attributes. *)
Definition snapshot_ok (e : Value) : Prop :=
  ∃ a, screen_ok a ∧ e = snapshot_of a.

Definition normalized_attrs : list string :=
  ["sx"; "sy"; "sz"; "osx"; "osy"; "osz"; "psx"; "psy"; "psz";
   "dsx"; "dsy"; "dsz"]%string.

Record wf (s : State) : Prop := mk_wf {
  wf_normalized : Forall (float_attr (attrs s)) normalized_attrs;
  wf_screen : screen_ok (attrs s);
  wf_is_touch : ∃ b, attrs s !! "is_touch" = Some (VBool b);
  wf_exclusive :
    attrs s !! "grab_exclusive_class" = Some VNone ∨
    ∃ c, attrs s !! "grab_exclusive_class" = Some (VWeak c);
  wf_push_attrs :
    attrs s !! "push_attrs" = Some (VTuple (VStr <$> default_push_attrs));
  wf_lists : ∃ gl sl ws st,
    gl ≠ sl ∧
    attrs s !! "grab_list" = Some (VRef gl) ∧
    heap s !! gl = Some (OList ws) ∧
    attrs s !! "push_attrs_stack" = Some (VRef sl) ∧
    heap s !! sl = Some (OList st) ∧
    Forall snapshot_ok st;
}.

(** * Notions the statements use *)

(** The content of the snapshot stack, when [push_attrs_stack] is a list. *)
Definition stack_of (s : State) : option (list Value) :=
  match attr s "push_attrs_stack" with
  | Some (VRef l) =>
      match heap s !! l with
      | Some (OList st) => Some st
      | _ => None
      end
  | _ => None
  end.

(** The content of [grab_list], when it is a list. *)
Definition grab_list_of (s : State) : option (list Value) :=
  match attr s "grab_list" with
  | Some (VRef l) =>
      match heap s !! l with
      | Some (OList ws) => Some ws
      | _ => None
      end
  | _ => None
  end.






(** A payload whose coordinates, where it gives them, are finite floats
    (neither an infinity nor a NaN). *)
Definition finite_coord (o : option float) : bool :=
  match o with
  | Some f => is_finite f
  | None => true
  end.

Definition finite_args (args : Args) : bool :=
  finite_coord (arg_sx args) && finite_coord (arg_sy args) &&
  finite_coord (arg_sz args).




(** ** Example events *)

Definition touch_args : Args :=
  mkArgs (Some 0.5%float) (Some 0.25%float) None (Some true).

(** A touch at [(0.5, 0.25)], as a mouse provider constructs it. *)
Definition fresh_touch : State :=
  state_of (__init__ (VStr "mouse") (VInt 1) touch_args
              (new_object (Subclass "MouseMotionEvent") 0 0%float)).

(** The same touch on a 200 by 100 window rotated by 90 degrees. *)
Definition projected_touch : State :=
  state_of (run (OpScale 200 100 None 90) fresh_touch).

(** Window to widget coordinates, for a widget at [(10, 20)]. *)
Definition to_local (x y : float) : float * float :=
  (x - 10, y - 20)%float.

Definition drag_args : Args := mkArgs (Some 0.75%float) None None None.
Definition release_args : Args := mkArgs (Some 1%float) None None None.

(** A touch that was projected, moved and projected again. *)
Definition dragged_touch : State :=
  state_of (run (OpScale 200 100 None 0)
    (state_of (run (OpMove drag_args)
      (state_of (run (OpScale 200 100 None 0) fresh_touch))))).

Definition released_touch : State :=
  state_of (run (OpMove release_args) dragged_touch).



(** * The rest of the module *)

(** ** EnhancedDictionnary *)

(** [k == name] for a key or an item [k] and a string. *)
Definition key_is (name : string) (k : Value) : bool :=
  match k with
  | VStr t => String.eqb t name
  | _ => false
  end.





Module EnhancedDictionnary.



End EnhancedDictionnary.

(** ** MotionEventMetaclass *)

(** [MotionEventMetaclass.__new__]: the [__attrs__] of the new class, from
    the [__attrs__] of its bases (for the bases that have one) and its own
    (when it declares one). *)
Definition MotionEventMetaclass_new (bases : list (option (list string)))
    (attrs : option (list string)) : list string :=
  let inherited :=
    foldl (λ acc base,
             match base with
             | Some base_attrs => acc ++ base_attrs
             | None => acc
             end) [] bases in
  match attrs with
  | Some own => inherited ++ own
  | None => inherited
  end.

(** The [__attrs__] the class [MotionEvent] declares. *)
Definition MotionEvent_attrs : list string :=
  ["device"; "push_attrs"; "push_attrs_stack";
   "is_touch"; "id"; "shape"; "profile";
   "sx"; "sy"; "sz";
   "osx"; "osy"; "osz";
   "psx"; "psy"; "psz";
   "dsx"; "dsy"; "dsz";
   "x"; "y"; "z";
   "ox"; "oy"; "oz";
   "px"; "py"; "pz";
   "dx"; "dy"; "dz";
   "time_start"; "is_double_tap";
   "double_tap_time"; "ud"]%string.

(** [MotionEvent.__attrs__], as the metaclass builds it: the only base is
    [object]. *)
Definition MotionEvent__attrs__ : list string :=
  MotionEventMetaclass_new [None] (Some MotionEvent_attrs).

(** ** The remaining methods of MotionEvent *)

(** [copy(v)] of the module [copy]: a list or a dictionary is copied into a
    new object with the same items, everything else an event holds
    (numbers, strings, [None], tuples, weak references) is returned as it
    is. *)
Definition copy (v : Value) : M Value :=
  λ s, match v with
       | VRef l =>
           match heap s !! l with
           | Some o => alloc o s
           | None => Raises TypeError s
           end
       | _ => Returns v s
       end.

(** [copy_to(self, to)], for the [__attrs__] of the class of [self]; the
    attributes of [to] are passed in and returned. *)
Fixpoint copy_to (__attrs__ : list string) (to : gmap string Value)
    : M (gmap string Value) :=
  match __attrs__ with
  | [] => ret to
  | attr :: rest =>
      v ← getattr attr;
      v' ← copy v;
      copy_to rest (<[attr := v']> to)
  end.

Definition opos : M Value :=
  ox ← getattr "ox"; oy ← getattr "oy"; ret (VTuple [ox; oy]).
Definition spos : M Value :=
  sx ← getattr "sx"; sy ← getattr "sy"; ret (VTuple [sx; sy]).

(** [needle in hay] for two strings. *)
Fixpoint starts_with (needle hay : string) : bool :=
  match needle, hay with
  | EmptyString, _ => true
  | String a needle', String b hay' =>
      Ascii.eqb a b && starts_with needle' hay'
  | String _ _, EmptyString => false
  end.

Fixpoint str_contains (needle hay : string) : bool :=
  starts_with needle hay ||
  match hay with
  | EmptyString => false
  | String _ hay' => str_contains needle hay'
  end.

(** ['name' in v] for a string: an item of a list or a tuple, a key of a
    dictionary, a substring of a string. *)
Definition contains_str (v : Value) (name : string) : M bool :=
  λ s, match v with
       | VRef l =>
           match heap s !! l with
           | Some (OList vs) => Returns (existsb (key_is name) vs) s
           | Some (ODict kvs) => Returns (existsb (key_is name) kvs.*1) s
           | None => Raises TypeError s
           end
       | VTuple vs | VList vs => Returns (existsb (key_is name) vs) s
       | VStr t => Returns (str_contains name t) s
       | _ => Raises TypeError s
       end.

(** [is_mouse_scrolling]: [and] evaluates its right operand only when the
    left one is true. *)
Definition is_mouse_scrolling : M Value :=
  profile ← getattr "profile";
  has_button ← contains_str profile "button";
  if (has_button : bool) then
    button ← getattr "button";
    scrolls ← contains_str button "scroll";
    ret (VBool scrolls)
  else ret (VBool false).

(** ** Notions the further statements use *)

(** The attributes no method of the class assigns after construction. *)
Definition identity_attrs : list string :=
  ["uid"; "id"; "device"; "time_start"; "time_end"; "push_attrs";
   "is_double_tap"; "double_tap_time"; "shape"; "profile"; "ud";
   "grab_current"; "grab_state"]%string.

(** The claimant [c] holds the exclusive grab. *)
Definition exclusive_is (s : State) (c : claimant) : Prop :=
  attr s "grab_exclusive_class" = Some (VWeak c).

(** The claimant [c] is granted a grab: it is in [grab_list]. *)
Definition granted (s : State) (c : claimant) : bool :=
  match grab_list_of s with
  | Some ws => existsb (eq_weakref c) ws
  | None => false
  end.

(** [delta = current - previous] for one normalized coordinate. *)
Definition normalized_delta (s : State) (cur prev delta : string) : Prop :=
  ∃ c p : float,
    attr s cur = Some (VFloat c) ∧ attr s prev = Some (VFloat p) ∧
    attr s delta = Some (VFloat (c - p)).

(** Every name of the list is an attribute, and where it refers to an
    object of the store the object is there: [copy_to] can read it. *)
Definition copyable (names : list string) (s : State) : bool :=
  forallb (λ name,
             match attr s name with
             | Some (VRef l) => bool_decide (is_Some (heap s !! l))
             | Some _ => true
             | None => false
             end) names.

(** [v'] is what [copy] makes of [v] in a store that had [n] objects and
    has the objects [h'] afterwards. *)
Definition copy_of (h : list Obj) (h' : list Obj) (v v' : Value) : Prop :=
  match v with
  | VRef l =>
      ∃ l', v' = VRef l' ∧ (length h ≤ l')%nat ∧ h' !! l' = h !! l
  | _ => v' = v
  end.

(** [grab_exclusive_class] after [ungrab(c)], from its value before. *)
Definition exclusive_after_ungrab (c : claimant) (v : option Value)
    : option Value :=
  match v with
  | Some v => Some (if eq_weakref c v then VNone else v)
  | None => None
  end.

(** What a call does outside the screen attributes. *)
Definition call_effect (op : Op) (s s' : State) : Prop :=
  self_class s' = self_class s ∧
  Forall (λ name, attr s' name = attr s name) identity_attrs ∧
  uniq_id s' = uniq_id s ∧
  match op with
  | OpDepack _ | OpMove _ =>
      normalized_delta s' "sx" "psx" "dsx" ∧
      normalized_delta s' "sy" "psy" "dsy" ∧
      normalized_delta s' "sz" "psz" "dsz"
  | _ => Forall (λ name, attr s' name = attr s name) normalized_attrs
  end ∧
  match op with
  | OpGrab c exclusive =>
      s' = s ∨
      attr s "grab_exclusive_class" = Some VNone ∧
      grab_list_of s' = (λ ws, ws ++ [VWeak c]) <$> grab_list_of s ∧
      attr s' "grab_exclusive_class" =
        (if exclusive then Some (VWeak c) else Some VNone)
  | OpUngrab c =>
      grab_list_of s' = remove_first c <$> grab_list_of s ∧
      attr s' "grab_exclusive_class" =
        exclusive_after_ungrab c (attr s "grab_exclusive_class")
  | _ =>
      attr s' "grab_exclusive_class" = attr s "grab_exclusive_class" ∧
      grab_list_of s' = grab_list_of s
  end.

(** How many times the claimant [c] is in [grab_list]. *)
Definition grant_count (s : State) (c : claimant) : nat :=
  match grab_list_of s with
  | Some ws => length (List.filter (eq_weakref c) ws)
  | None => 0
  end.

(** What holds of an event from its construction on, whatever is called on
    it: its class is a subclass, the attributes [__init__] alone assigns
    keep the values it gave them, each normalized delta is the current
    coordinate minus the previous one, and the exclusive claimant is among
    the granted ones. *)
Record settled (s : State) : Prop := mk_settled {
  settled_class : self_class s ≠ MotionEvent;
  settled_uid : attr s "uid" = Some (VInt (uniq_id s));
  settled_time_end : attr s "time_end" = Some (VInt (-1));
  settled_grab_current : attr s "grab_current" = Some VNone;
  settled_grab_state : attr s "grab_state" = Some (VBool false);
  settled_shape : attr s "shape" = Some VNone;
  settled_is_double_tap : attr s "is_double_tap" = Some (VBool false);
  settled_double_tap_time : attr s "double_tap_time" = Some (VInt 0);
  settled_dsx : normalized_delta s "sx" "psx" "dsx";
  settled_dsy : normalized_delta s "sy" "psy" "dsy";
  settled_dsz : normalized_delta s "sz" "psz" "dsz";
  settled_exclusive : ∀ c, exclusive_is s c → granted s c = true;
}.

(** The touch of the examples, grabbed exclusively by a widget. *)
Definition grabbed_touch : State :=
  state_of (run (OpGrab 7%positive true) fresh_touch).

(** The touch a provider constructs next, after [fresh_touch]. *)
Definition second_touch : State :=
  state_of (__init__ (VStr "mouse") (VInt 2) drag_args
              (new_object (Subclass "MouseMotionEvent")
                 (uniq_id fresh_touch) 1%float)).

(** The calls that place the event on the screen or in a widget. *)
Definition screen_call (op : Op) : bool :=
  match op with
  | OpScale _ _ _ _ | OpTransform _ => true
  | _ => false
  end.

(** A touch with one snapshot on its stack. *)
Definition pushed_touch : State :=
  state_of (run OpPush projected_touch).

(** An event as a mouse provider leaves it for a turn of the wheel: the
    profile names [button], and the button is [scrolldown]. *)
Definition wheel_event : State :=
  mkState (Subclass "MouseMotionEvent")
    (<["button" := VStr "scrolldown"]> (<["profile" := VRef 0%nat]> ∅))
    [OList [VStr "pos"; VStr "button"]] 1 0%float.


(** * Running a computation step by step *)

Section steps.
Context {A B : Type}.
Implicit Types (m : M A) (k : A → M B) (s : State).

Lemma bind_returns m k s a s' :
  m s = Returns a s' → (m ≫= k) s = k a s'.
Proof. intros H. unfold mbind, M_bind, bind. by rewrite H. Qed.

Lemma bind_raises m k s e s' :
  m s = Raises e s' → (m ≫= k) s = Raises e s'.
Proof. intros H. unfold mbind, M_bind, bind. by rewrite H. Qed.

Lemma bind_assoc {C} (m0 : M C) (f : C → M A) k s :
  ((m0 ≫= f) ≫= k) s = (m0 ≫= (λ x, f x ≫= k)) s.
Proof. unfold mbind, M_bind, bind. by destruct (m0 s). Qed.
End steps.

Lemma lookup_insert_eqb (a : gmap string Value) name v name' :
  <[name := v]> a !! name' =
  if String.eqb name name' then Some v else a !! name'.
Proof.
  destruct (String.eqb_spec name name') as [->|Hne].
  - apply lookup_insert_eq.
  - by apply lookup_insert_ne.
Qed.

Section primitive_steps.
Context (c : pyclass) (a : gmap string Value) (h : list Obj) (u : Z)
  (t : float).
Let s := mkState c a h u t.

Lemma run_ret {A} (x : A) : ret x s = Returns x s.
Proof. reflexivity. Qed.
Lemma run_raise {A} e : @raise A e s = Raises e s.
Proof. reflexivity. Qed.
Lemma run_lift_inr {A} (x : A) : lift (inr x) s = Returns x s.
Proof. reflexivity. Qed.
Lemma run_lift_inl {A} e : @lift A (inl e) s = Raises e s.
Proof. reflexivity. Qed.
Lemma run_getattr name v :
  a !! name = Some v → getattr name s = Returns v s.
Proof. intros H. unfold getattr. cbn [attrs s]. by rewrite H. Qed.
Lemma run_setattr name v :
  setattr name v s = Returns tt (mkState c (<[name := v]> a) h u t).
Proof. reflexivity. Qed.
Lemma run_time : time s = Returns (VFloat t) s.
Proof. reflexivity. Qed.
Lemma run_truthy_bool b : truthy (VBool b) s = Returns b s.
Proof. reflexivity. Qed.
Lemma run_truthy_float f :
  truthy (VFloat f) s = Returns (negb (PrimFloat.eqb f 0)) s.
Proof. reflexivity. Qed.
Lemma run_read_list method l vs :
  h !! l = Some (OList vs) → read_list method (VRef l) s = Returns (l, vs) s.
Proof. intros H. unfold read_list. cbn [heap s]. by rewrite H. Qed.
Lemma run_write_list l vs :
  write_list l vs s = Returns tt (mkState c a (<[l := OList vs]> h) u t).
Proof. reflexivity. Qed.
Lemma run_list_append l vs v :
  h !! l = Some (OList vs) →
  list_append (VRef l) v s =
  Returns tt (mkState c a (<[l := OList (vs ++ [v])]> h) u t).
Proof.
  intros H. unfold list_append.
  by erewrite bind_returns by by apply run_read_list.
Qed.
Lemma run_list_pop_empty l :
  h !! l = Some (OList []) → list_pop (VRef l) s = Raises IndexError s.
Proof.
  intros H. unfold list_pop.
  by erewrite bind_returns by by apply run_read_list.
Qed.
Lemma run_list_pop l vs v :
  h !! l = Some (OList (vs ++ [v])) →
  list_pop (VRef l) s = Returns v (mkState c a (<[l := OList vs]> h) u t).
Proof.
  intros H. unfold list_pop.
  erewrite bind_returns by by apply run_read_list.
  cbv beta iota. by rewrite last_snoc, removelast_last.
Qed.
Lemma run_list_contains l vs cl :
  h !! l = Some (OList vs) →
  list_contains (VRef l) cl s = Returns (existsb (eq_weakref cl) vs) s.
Proof.
  intros H. unfold list_contains. cbn [heap s]. by rewrite H.
Qed.
Lemma run_alloc o :
  alloc o s = Returns (VRef (length h)) (mkState c a (h ++ [o]) u t).
Proof. reflexivity. Qed.
Lemma run_list_remove l vs cl :
  h !! l = Some (OList vs) → existsb (eq_weakref cl) vs = true →
  list_remove (VRef l) cl s =
  Returns tt (mkState c a (<[l := OList (remove_first cl vs)]> h) u t).
Proof.
  intros H Hin. unfold list_remove.
  erewrite bind_returns by by apply run_read_list.
  cbv beta iota. by rewrite Hin.
Qed.
End primitive_steps.

Lemma py_sub_float a b : py_sub (VFloat a) (VFloat b) = inr (VFloat (a - b)).
Proof. reflexivity. Qed.
Lemma py_mul_float a b : py_mul (VFloat a) (VFloat b) = inr (VFloat (a * b)).
Proof. reflexivity. Qed.
Lemma py_sub_one a : py_sub (VInt 1) (VFloat a) = inr (VFloat (1 - a)).
Proof. reflexivity. Qed.

(** Decides the comparisons of attribute names a lookup goes through. *)
Ltac eqb_strings :=
  repeat match goal with
  | |- context [String.eqb ?a ?b] =>
      let r := eval vm_compute in (String.eqb a b) in
      change (String.eqb a b) with r
  end.

Ltac lookup_attr :=
  repeat (rewrite lookup_insert_eqb; eqb_strings; cbv beta iota);
  try match goal with
  | H : ?a !! ?k = _ |- context [?a !! ?k] => rewrite H
  end.

Ltac solve_lookup := lookup_attr; reflexivity.

Ltac solve_heap_lookup :=
  first
  [ eassumption
  | apply list_lookup_insert_eq; eapply lookup_lt_Some; eassumption
  | rewrite list_lookup_insert_ne by congruence; eassumption
  | reflexivity ].

(** One primitive step that returns, or raises. *)
Ltac solve_returns :=
  lazymatch goal with
  | |- ret _ _ = _ => apply run_ret
  | |- lift (inr _) _ = _ => apply run_lift_inr
  | |- setattr _ _ _ = _ => apply run_setattr
  | |- time _ = _ => apply run_time
  | |- truthy (VBool _) _ = _ => apply run_truthy_bool
  | |- truthy (VFloat _) _ = _ => apply run_truthy_float
  | |- write_list _ _ _ = _ => apply run_write_list
  | |- getattr _ _ = _ => eapply run_getattr; solve_lookup
  | |- list_append _ _ _ = _ => eapply run_list_append; solve_heap_lookup
  | |- list_pop _ _ = _ => eapply run_list_pop; solve_heap_lookup
  | |- list_contains _ _ _ = _ => eapply run_list_contains; solve_heap_lookup
  | |- read_list _ _ _ = _ => eapply run_read_list; solve_heap_lookup
  | |- list_remove _ _ _ = _ =>
      eapply run_list_remove; [solve_heap_lookup | eassumption]
  | |- alloc _ _ = _ => apply run_alloc
  end.

Ltac solve_raises :=
  lazymatch goal with
  | |- raise _ _ = _ => apply run_raise
  | |- lift (inl _) _ = _ => apply run_lift_inl
  | |- list_pop _ _ = _ => eapply run_list_pop_empty; solve_heap_lookup
  end.

Ltac exec_step :=
  first
  [ rewrite bind_assoc
  | erewrite bind_returns by solve_returns
  | erewrite bind_raises by solve_raises
  | rewrite py_sub_float
  | rewrite py_mul_float
  | rewrite py_sub_one
  | progress cbn [assign fmap option_fmap option_map is_None py_float
                  negb call_transform fst snd eq_weakref
                  list_fmap items getattrs as_str unpack2 index for_each
                  seq length lookup list_lookup app
                  self_class set_uniq_id uniq_id attrs heap clock]
  | progress cbv beta iota zeta ].

Ltac exec := repeat exec_step; try solve_returns; try solve_raises.

Lemma run_assign_float name (o : option float) f0 c a h u t :
  a !! name = Some (VFloat f0) →
  assign name (VFloat <$> o) (mkState c a h u t) =
  Returns tt (mkState c (<[name := VFloat (default f0 o)]> a) h u t).
Proof.
  intros H. destruct o; [reflexivity|].
  cbn [fmap option_fmap option_map assign default]. by rewrite insert_id.
Qed.

Lemma run_assign_bool name (o : option bool) b0 c a h u t :
  a !! name = Some (VBool b0) →
  assign name (VBool <$> o) (mkState c a h u t) =
  Returns tt (mkState c (<[name := VBool (default b0 o)]> a) h u t).
Proof.
  intros H. destruct o; [reflexivity|].
  cbn [fmap option_fmap option_map assign default]. by rewrite insert_id.
Qed.

Ltac solve_assign :=
  lazymatch goal with
  | |- assign _ (VFloat <$> _) _ = _ => eapply run_assign_float; solve_lookup
  | |- assign _ (VBool <$> _) _ = _ => eapply run_assign_bool; solve_lookup
  end.

Ltac exec_all :=
  repeat first [ exec_step | erewrite bind_returns by solve_assign ];
  try solve_returns; try solve_raises.

Ltac exec_done := exec_all; try reflexivity.

(** ** The invariant is kept by every call *)

Ltac destruct_float3 :=
  repeat match goal with
  | H : float3 _ _ _ _ |- _ => destruct H as ([? ?] & [? ?] & [? ?])
  | H : unset3 _ _ _ _ |- _ => destruct H as (? & ? & ?)
  | H : float_attr _ _ |- _ => destruct H as [? ?]
  | H1 : ?a !! ?k = Some _, H2 : ?a !! ?k = Some _ |- _ =>
      rewrite H1 in H2; injection H2 as ?; subst
  end.

Ltac destruct_screen_ok H :=
  destruct H as
    [? (? & ? & ? & ? & ?) ([? ?] & [? ?] & [? ?]) [[??]|[[??]|[??]]]];
  destruct_float3.

Ltac destruct_wf H :=
  let Hn := fresh "Hnorm" in
  let Hs := fresh "Hscr" in
  destruct H as
    [Hn Hs [? ?] ? ? (? & ? & ? & ? & ? & ? & ? & ? & ? & ?)];
  cbn [attrs heap] in *;
  unfold normalized_attrs in Hn;
  repeat (apply Forall_cons in Hn as [? Hn]); clear Hn;
  destruct_screen_ok Hs.

Ltac solve_float_attr := unfold float_attr; lookup_attr; eauto.

Ltac solve_triple :=
  unfold unset3, float3; split_and!;
  first [ solve_lookup | solve_float_attr ].

Ltac solve_screen_ok :=
  split;
  [ solve_triple
  | do 2 eexists; split_and!; solve_lookup
  | split_and!; lookup_attr; eauto
  | first
    [ left; split; solve [solve_triple]
    | right; left; split; solve [solve_triple]
    | right; right; split; solve [solve_triple] ] ].

Ltac solve_wf :=
  split; cbn [attrs heap];
  [ unfold normalized_attrs;
    repeat first [apply Forall_nil_2 | apply Forall_cons_2];
    solve_float_attr
  | solve_screen_ok
  | lookup_attr; eauto
  | lookup_attr; eauto
  | solve_lookup
  | do 4 eexists; split_and!;
    [ eassumption | solve_lookup | solve_heap_lookup
    | solve_lookup | solve_heap_lookup | eauto ] ].

Lemma provider_depack_wf args s :
  wf s → ∃ s', provider_depack args s = Returns tt s' ∧ wf s'.
Proof.
  intros H. destruct s as [c a h u t]. destruct_wf H.
  all: eexists; (split; [unfold provider_depack, depack; exec_all | idtac ]).
  all: solve_wf.
Qed.

Lemma move_wf args s :
  wf s → ∃ s', move args s = Returns tt s' ∧ wf s'.
Proof.
  intros H. destruct s as [c a h u t]. destruct_wf H.
  all: eexists;
    (split; [unfold move, provider_depack, depack; exec_all | idtac ]).
  all: solve_wf.
Qed.

Lemma scale_for_screen_wf w h p rotation s :
  wf s → ∃ s', scale_for_screen w h p rotation s = Returns tt s' ∧ wf s'.
Proof.
  intros H. destruct s as [c a hp u t]. destruct_wf H.
  all: unfold scale_for_screen, py_float.
  all: destruct (rotation =? 0); [|destruct (rotation =? 90);
         [|destruct (rotation =? 180); [|destruct (rotation =? 270)]]].
  all: destruct p as [p|]; [destruct (PrimFloat.eqb p 0) eqn:Hp|].
  all: eexists; (split; [exec_all; rewrite ?Hp; exec_all | idtac ]).
  all: solve_wf.
Qed.

Lemma outcome_wf {A} (m : M A) s :
  (∃ o, m s = o ∧ wf (state_of o)) → wf (state_of (m s)).
Proof. by intros (o & -> & H). Qed.

Lemma apply_transform_2d_wf transform s :
  wf s → wf (state_of (apply_transform_2d transform s)).
Proof.
  intros H. apply outcome_wf. destruct s as [c a h u t]. destruct_wf H.
  all: eexists; (split; [unfold apply_transform_2d; exec_done | idtac ]).
  all: cbn [state_of]; solve_wf.
Qed.

Lemma grab_wf class_instance exclusive s :
  wf s → wf (state_of (grab class_instance exclusive s)).
Proof.
  intros H. apply outcome_wf. destruct s as [c a h u t]. destruct_wf H.
  all: match goal with H : _ ∨ _ |- _ => destruct H as [?|[? ?]] end.
  all: match goal with H : _ !! "is_touch" = Some (VBool ?b) |- _ =>
         destruct b end.
  all: destruct exclusive.
  all: eexists; (split; [unfold grab; exec_done | idtac ]).
  all: cbn [state_of]; solve_wf.
Qed.

Lemma ungrab_wf class_instance s :
  wf s → ∃ s', ungrab class_instance s = Returns tt s' ∧ wf s'.
Proof.
  intros H. destruct s as [c a h u t]. destruct_wf H.
  all: match goal with H : _ ∨ _ |- _ => destruct H as [?|[c' ?]] end.
  all: try destruct (Pos.eqb c' class_instance) eqn:Hc.
  all: match goal with
       | Hl : _ !! "grab_list" = Some (VRef ?gl), _ : _ !! ?gl = Some (OList ?ws)
         |- _ => destruct (existsb (eq_weakref class_instance) ws) eqn:Hin
       end.
  all: eexists;
    (split; [unfold ungrab; exec_all; rewrite ?Hc, ?Hin; exec_all;
             rewrite ?Hin; exec_all | idtac ]).
  all: solve_wf.
Qed.

Lemma snapshot_of_wf s : wf s → snapshot_ok (snapshot_of (attrs s)).
Proof. intros H. exists (attrs s). split; [apply H | done]. Qed.

Lemma push_wf s :
  wf s → ∃ s', push None s = Returns tt s' ∧ wf s'.
Proof.
  intros H. pose proof (snapshot_of_wf s H) as Hsnap.
  destruct s as [c a h u t]. destruct_wf H.
  all: eexists;
    (split; [unfold push, default_push_attrs in *; exec_all | idtac ]).
  all: split; cbn [attrs heap];
    [ unfold normalized_attrs;
      repeat first [apply Forall_nil_2 | apply Forall_cons_2];
      solve_float_attr
    | solve_screen_ok
    | lookup_attr; eauto
    | lookup_attr; eauto
    | solve_lookup
    | do 4 eexists; split_and!;
      [ eassumption | solve_lookup | solve_heap_lookup
      | solve_lookup | solve_heap_lookup | idtac ] ].
  all: apply Forall_app; split; [assumption|].
  all: apply Forall_singleton.
  all: revert Hsnap; unfold snapshot_of, default_push_attrs;
    cbn [attrs fmap list_fmap];
    repeat match goal with
    | H : ?a !! ?k = _ |- context [?a !! ?k] => rewrite H
    end; cbn [default]; auto.
Qed.

Lemma snoc_cases {A} (l : list A) : l = [] ∨ ∃ l' x, l = l' ++ [x].
Proof. induction l using rev_ind; eauto. Qed.

Lemma pop_wf s : wf s → wf (state_of (pop s)).
Proof.
  intros H. apply outcome_wf. destruct s as [c a h u t]. destruct_wf H.
  all: match goal with
       | Hst : Forall snapshot_ok ?st |- _ =>
           destruct (snoc_cases st) as [->|(st' & e & ->)]
       end.
  all: try (eexists; (split; [unfold pop; exec_done | idtac ]);
            cbn [state_of]; solve_wf).
  all: match goal with
       | Hst : Forall snapshot_ok _ |- _ =>
           apply Forall_app in Hst as [Hst' Htop];
           apply Forall_singleton in Htop as (a0 & Hok & ->)
       end.
  all: destruct_screen_ok Hok.
  all: eexists;
    (split;
     [ unfold pop; exec_all; unfold snapshot_of, default_push_attrs; exec_all;
       repeat match goal with
       | H : ?a !! ?k = _ |- context [?a !! ?k] => rewrite H
       end; cbn [default]; exec_done
     | idtac ]).
  all: cbn [state_of]; solve_wf.
Qed.

Lemma init_returns name counter now device id args :
  ∃ s, __init__ device id args (new_object (Subclass name) counter now)
       = Returns tt s.
Proof.
  eexists. unfold __init__, new_object, provider_depack, depack.
  exec_all.
Qed.

Lemma Returns_inj {A} (a b : A) s s' : Returns a s = Returns b s' → s = s'.
Proof. by intros [= _ ->]. Qed.

Lemma init_wf cls counter now device id args s :
  __init__ device id args (new_object cls counter now) = Returns tt s →
  wf s.
Proof.
  destruct cls as [|name]; [discriminate|].
  unfold __init__, new_object, provider_depack, depack.
  cbn [self_class]. exec_all. intros <-%Returns_inj.
  split; cbn [attrs heap];
    [ unfold normalized_attrs;
      repeat first [apply Forall_nil_2 | apply Forall_cons_2];
      solve_float_attr
    | solve_screen_ok
    | lookup_attr; eauto
    | lookup_attr; eauto
    | solve_lookup
    | exists 1%nat, 0%nat, [], []; split_and!;
      [ done | solve_lookup | done | solve_lookup | done | done ] ].
Qed.

Theorem run_wf op s : wf s → wf (state_of (run op s)).
Proof.
  intros H. destruct op as
    [args|args|w h p rotation|transform|cl excl|cl| |]; cbn [run].
  - by destruct (provider_depack_wf args s H) as (s' & -> & ?).
  - by destruct (move_wf args s H) as (s' & -> & ?).
  - by destruct (scale_for_screen_wf w h p rotation s H) as (s' & -> & ?).
  - by apply apply_transform_2d_wf.
  - by apply grab_wf.
  - by destruct (ungrab_wf cl s H) as (s' & -> & ?).
  - by destruct (push_wf s H) as (s' & -> & ?).
  - by apply pop_wf.
Qed.

Theorem reachable_wf s : reachable s → wf s.
Proof.
  induction 1 as [cls counter now device id args s Hinit|op s _ IH|now s _ IH].
  - by eapply init_wf.
  - by apply run_wf.
  - destruct s. by destruct IH.
Qed.

(** * The claims *)

(** ** Example events are reachable *)

Lemma fresh_touch_reachable : reachable fresh_touch.
Proof.
  eapply (reach_init (Subclass "MouseMotionEvent") 0 0%float (VStr "mouse")
            (VInt 1) touch_args).
  vm_compute. reflexivity.
Defined.

Lemma projected_touch_reachable : reachable projected_touch.
Proof. apply reach_call, fresh_touch_reachable. Defined.

Lemma dragged_touch_reachable : reachable dragged_touch.
Proof. do 3 apply reach_call. apply fresh_touch_reachable. Defined.

(** ** grab *)

Lemma grab_list_of_eq c a h u t gl ws :
  a !! "grab_list" = Some (VRef gl) → h !! gl = Some (OList ws) →
  grab_list_of (mkState c a h u t) = Some ws.
Proof. intros Ha Hh. unfold grab_list_of, attr. cbn [attrs heap]. by rewrite Ha, Hh. Qed.

(** Claim C1.  On every event a provider constructed, [grab(c, exclusive)]
    raises [NotGrabbable] when [is_touch] is false and leaves the event as it
    was; otherwise it raises [AlreadyExclusive] when an exclusive claimant is
    recorded; otherwise it returns, having appended a weak reference to [c]
    to [grab_list], whatever the list held, and recorded [c] as the exclusive
    claimant when [exclusive] is true, after which every further grab raises
    [AlreadyExclusive]. *)
Theorem grab_spec s class_instance exclusive :
  reachable s →
  (attr s "is_touch" = Some (VBool false) →
   grab class_instance exclusive s = Raises NotGrabbable s) ∧
  (attr s "is_touch" = Some (VBool true) →
   attr s "grab_exclusive_class" ≠ Some VNone →
   grab class_instance exclusive s = Raises AlreadyExclusive s) ∧
  (attr s "is_touch" = Some (VBool true) →
   attr s "grab_exclusive_class" = Some VNone →
   ∃ s',
     grab class_instance exclusive s = Returns tt s' ∧
     grab_list_of s' = (λ ws, ws ++ [VWeak class_instance]) <$> grab_list_of s ∧
     is_Some (grab_list_of s) ∧
     attr s' "grab_exclusive_class" =
       Some (if exclusive then VWeak class_instance else VNone) ∧
     (∀ cl excl, exclusive = true →
        grab cl excl s' = Raises AlreadyExclusive s')).
Proof.
  intros Hwf%reachable_wf. unfold attr.
  destruct s as [c a h u t]. destruct_wf Hwf.
  all: match goal with H : _ ∨ _ |- _ => destruct H as [?|[? ?]] end.
  all: split_and!; intros; simplify_eq.
  all: try (unfold grab; exec_done; fail).
  all: destruct exclusive.
  all: eexists; split_and!; [unfold grab; exec_done | ..].
  all: try (erewrite !grab_list_of_eq by first [solve_lookup | solve_heap_lookup]; done).
  all: try (cbn [attrs]; solve_lookup).
  all: intros; try done.
  all: unfold grab; exec_done.
Qed.

Lemma grab_spec_witness :
  reachable fresh_touch ∧
  ∃ s', grab 7%positive true fresh_touch = Returns tt s' ∧
        grab_list_of s' = Some [VWeak 7%positive].
Proof.
  split; [exact fresh_touch_reachable|].
  assert (attr fresh_touch "is_touch" = Some (VBool true)) as Htouch
    by by vm_compute.
  assert (attr fresh_touch "grab_exclusive_class" = Some VNone) as Hfree
    by by vm_compute.
  assert ((λ ws, ws ++ [VWeak 7%positive]) <$> grab_list_of fresh_touch
          = Some [VWeak 7%positive]) as Hlist by by vm_compute.
  destruct (grab_spec fresh_touch 7%positive true fresh_touch_reachable)
    as (_ & _ & H).
  destruct (H Htouch Hfree) as (s' & Hg & Hl & _).
  exists s'. exact (conj Hg (eq_trans Hl Hlist)).
Defined.

(** ** scale_for_screen *)

Section screen_projection.
Local Open Scope float_scope.

(** Claim C2.  With [rotation = 0] the screen position is
    [(sx * w, sy * h)]; with [rotation = 90] the normalized pair is swapped to
    [(sy, 1 - sx)] and the screen position is [(sy * h, (1 - sx) * w)]; for
    [sx = 0.5], [sy = 0.25], [w = 200], [h = 100] the swapped pair is
    [(0.25, 0.5)] and the position is [x = 0.25 * 100 = 25],
    [y = 0.5 * 200 = 100]. *)
Theorem scale_for_screen_rotation_table s w h p sx sy :
  reachable s →
  attr s "sx" = Some (VFloat sx) → attr s "sy" = Some (VFloat sy) →
  (∃ s',
     scale_for_screen w h p 0 s = Returns tt s' ∧
     attr s' "x" = Some (VFloat (sx * w)) ∧
     attr s' "y" = Some (VFloat (sy * h))) ∧
  (∃ s',
     scale_for_screen w h p 90 s = Returns tt s' ∧
     attr s' "x" = Some (VFloat (sy * h)) ∧
     attr s' "y" = Some (VFloat ((1 - sx) * w))) ∧
  (sx = 0.5 → sy = 0.25 → w = 200 → h = 100 →
   (sy, 1 - sx) = (0.25, 0.5) ∧ sy * h = 25 ∧ (1 - sx) * w = 100).
Proof.
  intros Hwf%reachable_wf Hsx Hsy. unfold attr in *.
  split_and!.
  3: { intros -> -> -> ->. by vm_compute. }
  all: destruct s as [c a hp u t]; destruct_wf Hwf.
  all: unfold scale_for_screen, py_float; cbn [Z.eqb Pos.eqb].
  all: destruct p as [p|]; [destruct (PrimFloat.eqb p 0) eqn:Hp|].
  all: eexists; split_and!; [exec_all; rewrite ?Hp; exec_all | ..].
  all: cbn [attrs]; solve_lookup.
Qed.

Lemma scale_for_screen_rotation_table_witness :
  reachable fresh_touch ∧
  ∃ s',
    scale_for_screen 200 100 None 90 fresh_touch = Returns tt s' ∧
    attr s' "x" = Some (VFloat 25) ∧ attr s' "y" = Some (VFloat 100).
Proof.
  split; [exact fresh_touch_reachable|].
  assert (attr fresh_touch "sx" = Some (VFloat 0.5)) as Hsx by by vm_compute.
  assert (attr fresh_touch "sy" = Some (VFloat 0.25)) as Hsy by by vm_compute.
  exact (proj1 (proj2 (scale_for_screen_rotation_table
                         fresh_touch 200 100 None 0.5 0.25
                         fresh_touch_reachable Hsx Hsy))).
Defined.



End screen_projection.

(** ** The cached position *)




(** ** apply_transform_2d *)

Section planar_transform.
Local Open Scope float_scope.



End planar_transform.

(** ** The origin coordinates *)

Lemma outcome_post {A} (m : M A) s (P : State → Prop) :
  (∃ o, m s = o ∧ P (state_of o)) → P (state_of (m s)).
Proof. by intros (o & -> & H). Qed.






(** ** move *)

Section moving.
Local Open Scope float_scope.

(** What [scale_for_screen] leaves behind on a well-formed event: the screen
    delta is the current position minus the previous one, and the previous
    one is kept once the origin is set. *)
Lemma scale_for_screen_delta w h p rotation s :
  wf s →
  ∃ s' x y z px py pz,
    scale_for_screen w h p rotation s = Returns tt s' ∧
    attr s' "x" = Some (VFloat x) ∧ attr s' "y" = Some (VFloat y) ∧
    attr s' "z" = Some (VFloat z) ∧
    attr s' "px" = Some (VFloat px) ∧ attr s' "py" = Some (VFloat py) ∧
    attr s' "pz" = Some (VFloat pz) ∧
    attr s' "dx" = Some (VFloat (x - px)) ∧
    attr s' "dy" = Some (VFloat (y - py)) ∧
    attr s' "dz" = Some (VFloat (z - pz)) ∧
    (attr s "ox" ≠ Some VNone →
     attr s' "px" = attr s "px" ∧ attr s' "py" = attr s "py" ∧
     attr s' "pz" = attr s "pz").
Proof.
  intros H. unfold attr. destruct s as [c a hp u t]. destruct_wf H.
  all: unfold scale_for_screen, py_float.
  all: destruct (rotation =? 0)%Z; [|destruct (rotation =? 90)%Z;
         [|destruct (rotation =? 180)%Z; [|destruct (rotation =? 270)%Z]]].
  all: destruct p as [p|]; [destruct (PrimFloat.eqb p 0) eqn:Hp|].
  all: do 7 eexists; split_and!; [exec_all; rewrite ?Hp; exec_all | ..].
  all: cbn [attrs]; try solve_lookup.
  all: intros Hox; try (exfalso; apply Hox; assumption).
  all: split_and!; solve_lookup.
Qed.

(** The claim as the specification words it fails in screen space: after
    [move] on a touch that was dragged from [x = 100] to [x = 150], the
    current and the previous [x] are both 150 while [dx] is still 50. *)
Lemma move_keeps_stale_screen_delta :
  reachable dragged_touch ∧
  move release_args dragged_touch = Returns tt released_touch ∧
  attr released_touch "x" = Some (VFloat 150) ∧
  attr released_touch "px" = Some (VFloat 150) ∧
  attr released_touch "dx" = Some (VFloat 50) ∧
  PrimFloat.eqb (150 - 150) 50 = false.
Proof.
  split; [exact dragged_touch_reachable|]. split_and!; by vm_compute.
Qed.

(** Claim C4, amended.  After every call to [move(args)] the previous
    coordinates equal the current coordinates from before the call, in
    normalized and in screen space, [time_update] is the current time, and
    the normalized delta is the new normalized position minus the one from
    before the call.  In screen space [move] leaves [x], [y], [z] and [dx],
    [dy], [dz] as they were: the screen delta is recomputed by the next
    [scale_for_screen], after which it is the current screen position minus
    the previous one, the previous one being the position from before the
    move once the screen origin is set. *)
Theorem move_shifts_current_to_previous s args :
  reachable s →
  ∃ s',
    move args s = Returns tt s' ∧
    attr s' "px" = attr s "x" ∧ attr s' "py" = attr s "y" ∧
    attr s' "pz" = attr s "z" ∧
    attr s' "psx" = attr s "sx" ∧ attr s' "psy" = attr s "sy" ∧
    attr s' "psz" = attr s "sz" ∧
    attr s' "time_update" = Some (VFloat (clock s)) ∧
    (∃ sx sy sz psx psy psz,
       attr s' "sx" = Some (VFloat sx) ∧ attr s' "sy" = Some (VFloat sy) ∧
       attr s' "sz" = Some (VFloat sz) ∧
       attr s "sx" = Some (VFloat psx) ∧ attr s "sy" = Some (VFloat psy) ∧
       attr s "sz" = Some (VFloat psz) ∧
       attr s' "dsx" = Some (VFloat (sx - psx)) ∧
       attr s' "dsy" = Some (VFloat (sy - psy)) ∧
       attr s' "dsz" = Some (VFloat (sz - psz))) ∧
    Forall (λ name, attr s' name = attr s name)
      ["x"; "y"; "z"; "dx"; "dy"; "dz"]%string ∧
    (∀ w h p rotation,
       ∃ s'' x y z px py pz,
         scale_for_screen w h p rotation s' = Returns tt s'' ∧
         attr s'' "x" = Some (VFloat x) ∧ attr s'' "y" = Some (VFloat y) ∧
         attr s'' "z" = Some (VFloat z) ∧
         attr s'' "px" = Some (VFloat px) ∧
         attr s'' "py" = Some (VFloat py) ∧
         attr s'' "pz" = Some (VFloat pz) ∧
         attr s'' "dx" = Some (VFloat (x - px)) ∧
         attr s'' "dy" = Some (VFloat (y - py)) ∧
         attr s'' "dz" = Some (VFloat (z - pz)) ∧
         (attr s "ox" ≠ Some VNone →
          attr s'' "px" = attr s "x" ∧ attr s'' "py" = attr s "y" ∧
          attr s'' "pz" = attr s "z")).
Proof.
  intros Hwf%reachable_wf.
  destruct (move_wf args s Hwf) as (s' & Hrun & Hwf').
  exists s'. split; [exact Hrun|].
  assert (attr s' "px" = attr s "x" ∧ attr s' "py" = attr s "y" ∧
          attr s' "pz" = attr s "z" ∧ attr s' "ox" = attr s "ox" ∧
          attr s' "psx" = attr s "sx" ∧ attr s' "psy" = attr s "sy" ∧
          attr s' "psz" = attr s "sz" ∧
          attr s' "time_update" = Some (VFloat (clock s)) ∧
          (∃ sx sy sz psx psy psz,
             attr s' "sx" = Some (VFloat sx) ∧ attr s' "sy" = Some (VFloat sy) ∧
             attr s' "sz" = Some (VFloat sz) ∧
             attr s "sx" = Some (VFloat psx) ∧ attr s "sy" = Some (VFloat psy) ∧
             attr s "sz" = Some (VFloat psz) ∧
             attr s' "dsx" = Some (VFloat (sx - psx)) ∧
             attr s' "dsy" = Some (VFloat (sy - psy)) ∧
             attr s' "dsz" = Some (VFloat (sz - psz))) ∧
          Forall (λ name, attr s' name = attr s name)
            ["x"; "y"; "z"; "dx"; "dy"; "dz"]%string) as Hfacts.
  { clear Hwf'. revert Hrun. unfold attr.
    destruct s as [c a h u t]. destruct_wf Hwf.
    all: unfold move, provider_depack, depack; exec_all; rewrite run_setattr.
    all: intros <-%Returns_inj; cbn [attrs clock].
    all: split_and!; try solve_lookup.
    all: try (do 6 eexists; split_and!; solve_lookup).
    all: repeat first [apply Forall_nil_2 | apply Forall_cons_2]; solve_lookup. }
  destruct Hfacts as (Hpx & Hpy & Hpz & Hox & Hpsx & Hpsy & Hpsz & Ht & Hn & Hfr).
  split_and!; try done.
  intros w h p rotation.
  destruct (scale_for_screen_delta w h p rotation s' Hwf')
    as (s'' & x & y & z & px & py & pz & Hs & Hx & Hy & Hz & Hpx' & Hpy'
        & Hpz' & Hdx & Hdy & Hdz & Hkeep).
  exists s'', x, y, z, px, py, pz. split_and!; try done.
  intros Hset. rewrite <- Hox in Hset. destruct (Hkeep Hset) as (-> & -> & ->).
  done.
Qed.

Lemma move_shifts_current_to_previous_witness :
  reachable dragged_touch ∧
  ∃ s',
    move release_args dragged_touch = Returns tt s' ∧
    attr s' "px" = Some (VFloat 150) ∧ attr s' "psx" = Some (VFloat 0.75) ∧
    attr s' "time_update" = Some (VFloat 0).
Proof.
  split; [exact dragged_touch_reachable|].
  destruct (move_shifts_current_to_previous dragged_touch release_args
              dragged_touch_reachable)
    as (s' & Hrun & Hpx & _ & _ & Hpsx & _ & _ & Ht & _).
  assert (attr dragged_touch "x" = Some (VFloat 150)) as Hx by by vm_compute.
  assert (attr dragged_touch "sx" = Some (VFloat 0.75)) as Hsx by by vm_compute.
  assert (Some (VFloat (clock dragged_touch)) = Some (VFloat 0)) as Hc
    by by vm_compute.
  exists s'.
  exact (conj Hrun (conj (eq_trans Hpx Hx)
                      (conj (eq_trans Hpsx Hsx) (eq_trans Ht Hc)))).
Defined.

End moving.

(** ** Construction *)

Section construction.
Local Open Scope float_scope.

Lemma sub_diag_finite x : is_finite x = true → x - x = 0.
Proof.
  intros Hfin. apply Prim2SF_inj. rewrite FloatAxioms.sub_spec.
  unfold is_finite, is_nan, is_infinity in Hfin.
  rewrite !FloatAxioms.eqb_spec, FloatAxioms.abs_spec in Hfin.
  destruct (Prim2SF x) as [sg|sg| |sg m e].
  - by destruct sg.
  - destruct sg; vm_compute in Hfin; discriminate.
  - vm_compute in Hfin; discriminate.
  - clear Hfin. unfold SF64sub, SFsub. cbv zeta.
    rewrite Z.sub_diag. reflexivity.
Qed.

Lemma finite_default o : finite_coord o = true → is_finite (default 0%float o) = true.
Proof. destruct o; [done|]. intros _. by vm_compute. Qed.

(** The claim as the specification words it fails for the screen deltas: on
    a freshly constructed touch [dx], [dy] and [dz] are [None], not zero. *)
Lemma fresh_event_screen_deltas_unset :
  __init__ (VStr "mouse") (VInt 1) touch_args
    (new_object (Subclass "MouseMotionEvent") 0 0%float)
  = Returns tt fresh_touch ∧
  attr fresh_touch "dx" = Some VNone ∧
  attr fresh_touch "dy" = Some VNone ∧
  attr fresh_touch "dz" = Some VNone.
Proof. split_and!; by vm_compute. Qed.

(** Claim C5, amended.  Every freshly constructed event whose payload
    coordinates are finite has origin, previous and current position equal
    in normalized space, and its normalized deltas [dsx], [dsy], [dsz] are
    zero; its screen deltas [dx], [dy], [dz] are still [None]. *)
Theorem fresh_event_normalized name counter now device id args :
  finite_args args = true →
  ∃ s sx sy sz,
    __init__ device id args (new_object (Subclass name) counter now)
    = Returns tt s ∧
    attr s "sx" = Some (VFloat sx) ∧ attr s "sy" = Some (VFloat sy) ∧
    attr s "sz" = Some (VFloat sz) ∧
    attr s "osx" = Some (VFloat sx) ∧ attr s "osy" = Some (VFloat sy) ∧
    attr s "osz" = Some (VFloat sz) ∧
    attr s "psx" = Some (VFloat sx) ∧ attr s "psy" = Some (VFloat sy) ∧
    attr s "psz" = Some (VFloat sz) ∧
    attr s "dsx" = Some (VFloat 0) ∧ attr s "dsy" = Some (VFloat 0) ∧
    attr s "dsz" = Some (VFloat 0) ∧
    attr s "dx" = Some VNone ∧ attr s "dy" = Some VNone ∧
    attr s "dz" = Some VNone.
Proof.
  unfold finite_args. intros [[Hx Hy]%andb_prop Hz]%andb_prop.
  apply finite_default, sub_diag_finite in Hx, Hy, Hz.
  do 4 eexists. split_and!.
  1: unfold __init__, new_object, provider_depack, depack; exec_all.
  all: unfold attr; cbn [attrs]; lookup_attr; rewrite ?Hx, ?Hy, ?Hz; reflexivity.
Qed.

Lemma fresh_event_normalized_witness :
  finite_args touch_args = true ∧
  ∃ s,
    __init__ (VStr "mouse") (VInt 1) touch_args
      (new_object (Subclass "MouseMotionEvent") 0 0%float) = Returns tt s ∧
    attr s "osx" = Some (VFloat 0.5) ∧ attr s "psx" = Some (VFloat 0.5) ∧
    attr s "sx" = Some (VFloat 0.5) ∧ attr s "dsx" = Some (VFloat 0).
Proof.
  split; [by vm_compute|].
  destruct (fresh_event_normalized "MouseMotionEvent" 0 0%float (VStr "mouse")
              (VInt 1) touch_args eq_refl)
    as (s & sx & sy & sz & Hrun & Hsx & _ & _ & Hosx & _ & _ & Hpsx & _ & _
        & Hdsx & _).
  exists s. split; [exact Hrun|].
  assert (s = fresh_touch) as -> by (apply (Returns_inj tt tt); rewrite <- Hrun; by vm_compute).
  assert (attr fresh_touch "sx" = Some (VFloat 0.5)) as Hsx' by by vm_compute.
  rewrite Hsx' in Hsx. injection Hsx as <-.
  split_and!; [exact Hosx|exact Hpsx|exact Hsx'|exact Hdsx].
Defined.

End construction.

(** ** push and pop *)

(** Claim C7.  [pop()] on an empty snapshot stack raises
    [EmptyStackUnderflow] (the [IndexError] of [list.pop]) and leaves the
    event as it was: every attribute, and the empty stack. *)
Theorem pop_empty_stack s :
  stack_of s = Some [] → pop s = Raises EmptyStackUnderflow s.
Proof.
  unfold stack_of, attr. destruct s as [c a h u t]. cbn [attrs heap].
  destruct (a !! "push_attrs_stack") as [[| | | | | | |l|]|] eqn:Ha; try done.
  destruct (h !! l) as [[[|]|]|] eqn:Hh; try done.
  intros _. unfold pop. exec_done.
Qed.

Lemma pop_empty_stack_witness :
  stack_of fresh_touch = Some [] ∧
  pop fresh_touch = Raises EmptyStackUnderflow fresh_touch.
Proof.
  assert (stack_of fresh_touch = Some []) as Hst by by vm_compute.
  exact (conj Hst (pop_empty_stack fresh_touch Hst)).
Defined.








Lemma stack_of_inv s st :
  stack_of s = Some st →
  ∃ sl, attrs s !! "push_attrs_stack" = Some (VRef sl) ∧
        heap s !! sl = Some (OList st).
Proof.
  unfold stack_of, attr.
  destruct (attrs s !! "push_attrs_stack") as [[| | | | | | |l|]|]; try done.
  destruct (heap s !! l) as [[|]|] eqn:Hh; try done.
  intros [= ->]. eauto.
Qed.




(** * Further properties of the module *)

(** ** What the calls leave alone *)

Lemma grab_list_of_insert c a h u t gl l o ws :
  a !! "grab_list" = Some (VRef gl) → h !! gl = Some (OList ws) → gl ≠ l →
  grab_list_of (mkState c a (<[l := o]> h) u t) = Some ws.
Proof.
  intros Ha Hh Hne. unfold grab_list_of, attr, loc in *. cbn [attrs heap].
  rewrite Ha. cbv beta iota.
  rewrite list_lookup_insert_ne by congruence. by rewrite Hh.
Qed.

Lemma grab_list_of_insert_eq c a h u t gl ws ws' :
  a !! "grab_list" = Some (VRef gl) → h !! gl = Some (OList ws) →
  grab_list_of (mkState c a (<[gl := OList ws']> h) u t) = Some ws'.
Proof.
  intros Ha Hh. unfold grab_list_of, attr, loc in *. cbn [attrs heap].
  rewrite Ha. cbv beta iota.
  rewrite list_lookup_insert_eq; [done|]. by eapply lookup_lt_Some.
Qed.

Lemma remove_first_notin c ws :
  existsb (eq_weakref c) ws = false → remove_first c ws = ws.
Proof.
  induction ws as [|w ws IH]; [done|]. cbn [existsb remove_first].
  intros [Hw Hws]%orb_false_iff. rewrite Hw. by rewrite IH.
Qed.

Ltac solve_grab_list :=
  first
  [ erewrite !grab_list_of_eq by first [ solve_lookup | eassumption ];
    reflexivity
  | erewrite !grab_list_of_eq by first [ solve_lookup | eassumption ];
    cbn [fmap option_fmap option_map];
    rewrite remove_first_notin by assumption; reflexivity
  | erewrite grab_list_of_insert_eq by first [ solve_lookup | eassumption ];
    erewrite grab_list_of_eq by first [ solve_lookup | eassumption ];
    reflexivity
  | erewrite grab_list_of_insert by first [ solve_lookup | eassumption | congruence ];
    erewrite grab_list_of_eq by first [ solve_lookup | eassumption ];
    reflexivity ].

Ltac solve_effect_goal :=
  lazymatch goal with
  | |- True => exact I
  | |- Forall _ _ =>
      unfold identity_attrs, normalized_attrs;
      repeat first [apply Forall_nil_2 | apply Forall_cons_2];
      unfold attr; cbn [attrs]; solve_lookup
  | |- normalized_delta _ _ _ _ =>
      unfold normalized_delta, attr; cbn [attrs];
      do 2 eexists; split_and!; solve_lookup
  | |- grab_list_of _ = _ => solve_grab_list
  | |- uniq_id _ = _ => reflexivity
  | |- self_class _ = _ => reflexivity
  | |- _ = _ => unfold attr, exclusive_after_ungrab; cbn [attrs];
               lookup_attr; cbn [eq_weakref]; rewrite ?Pos.eqb_refl;
               first
               [ reflexivity
               | match goal with
                 | H : Pos.eqb _ _ = _ |- _ => rewrite H; reflexivity
                 end ]
  end.

Ltac solve_effect :=
  cbn [state_of]; unfold call_effect; split_and!; solve_effect_goal.

Lemma run_call_effect op s : wf s → call_effect op s (state_of (run op s)).
Proof.
  intros H. apply outcome_post. destruct s as [c a hp u t].
  destruct op as [args|args|w h p rotation|transform|cl excl|cl| |];
    cbn [run].
  - destruct_wf H.
    all: eexists; (split; [unfold provider_depack, depack; exec_done|]).
    all: solve_effect.
  - destruct_wf H.
    all: eexists; (split; [unfold move, provider_depack, depack; exec_done|]).
    all: solve_effect.
  - destruct_wf H.
    all: unfold scale_for_screen, py_float.
    all: destruct (rotation =? 0); [|destruct (rotation =? 90);
           [|destruct (rotation =? 180); [|destruct (rotation =? 270)]]].
    all: destruct p as [p|]; [destruct (PrimFloat.eqb p 0) eqn:Hp|].
    all: eexists; (split; [exec_all; rewrite ?Hp; exec_done|]).
    all: solve_effect.
  - destruct_wf H.
    all: eexists; (split; [unfold apply_transform_2d; exec_done|]).
    all: solve_effect.
  - destruct_wf H.
    all: match goal with H : _ ∨ _ |- _ => destruct H as [?|[? ?]] end.
    all: match goal with H : _ !! "is_touch" = Some (VBool ?b) |- _ =>
           destruct b end.
    all: destruct excl.
    all: eexists; (split; [unfold grab; exec_done|]).
    all: cbn [state_of]; unfold call_effect; split_and!;
      try solve_effect_goal.
    all: first [ by left | right; split_and!; solve_effect_goal ].
  - destruct_wf H.
    all: match goal with H : _ ∨ _ |- _ => destruct H as [?|[c' ?]] end.
    all: try destruct (Pos.eqb c' cl) eqn:Hc.
    all: match goal with
         | Hl : _ !! "grab_list" = Some (VRef ?gl),
           _ : _ !! ?gl = Some (OList ?ws) |- _ =>
             destruct (existsb (eq_weakref cl) ws) eqn:Hin
         end.
    all: eexists;
      (split; [unfold ungrab; exec_all; rewrite ?Hc, ?Hin; exec_all;
               rewrite ?Hin; exec_done|]).
    all: solve_effect.
  - destruct_wf H.
    all: eexists;
      (split; [unfold push, default_push_attrs in *; exec_done|]).
    all: solve_effect.
  - destruct_wf H.
    all: match goal with
         | Hst : Forall snapshot_ok ?st |- _ =>
             destruct (snoc_cases st) as [->|(st' & e & ->)]
         end.
    all: try (eexists; (split; [unfold pop; exec_done|]); solve_effect).
    all: match goal with
         | Hst : Forall snapshot_ok _ |- _ =>
             apply Forall_app in Hst as [Hst' Htop];
             apply Forall_singleton in Htop as (a0 & Hok & ->)
         end.
    all: destruct_screen_ok Hok.
    all: eexists;
      (split;
       [ unfold pop; exec_all; unfold snapshot_of, default_push_attrs;
         exec_all;
         repeat match goal with
         | H : ?a !! ?k = _ |- context [?a !! ?k] => rewrite H
         end; cbn [default]; exec_done
       |]).
    all: solve_effect.
Qed.

(** ** Claimants *)

Lemma eq_weakref_both c c' v :
  eq_weakref c v = true → eq_weakref c' v = true → c' = c.
Proof.
  destruct v; try done. cbn [eq_weakref].
  intros ->%Pos.eqb_eq ->%Pos.eqb_eq. done.
Qed.

Lemma existsb_filter (f : Value → bool) ws :
  existsb f ws = negb (Nat.eqb (length (List.filter f ws)) 0).
Proof.
  induction ws as [|w ws IH]; [done|]. cbn [existsb List.filter].
  destruct (f w); [done|]. by rewrite IH.
Qed.

Lemma filter_remove_first c ws :
  length (List.filter (eq_weakref c) (remove_first c ws)) =
  Nat.pred (length (List.filter (eq_weakref c) ws)).
Proof.
  induction ws as [|w ws IH]; [done|]. cbn [remove_first List.filter].
  destruct (eq_weakref c w) eqn:Hw; [done|].
  cbn [List.filter]. by rewrite Hw.
Qed.

Lemma filter_remove_first_ne c c' ws :
  c' ≠ c →
  List.filter (eq_weakref c') (remove_first c ws) =
  List.filter (eq_weakref c') ws.
Proof.
  intros Hne. induction ws as [|w ws IH]; [done|].
  cbn [remove_first List.filter].
  destruct (eq_weakref c w) eqn:Hw.
  - destruct (eq_weakref c' w) eqn:Hw'; [|done].
    by destruct Hne; eapply eq_weakref_both.
  - cbn [List.filter]. by rewrite IH.
Qed.

Lemma remove_first_snoc c ws :
  existsb (eq_weakref c) ws = false →
  remove_first c (ws ++ [VWeak c]) = ws.
Proof.
  induction ws as [|w ws IH]; cbn [existsb remove_first app eq_weakref].
  - by rewrite Pos.eqb_refl.
  - intros [Hw Hws]%orb_false_iff. rewrite Hw. by rewrite IH.
Qed.

(** [ungrab] in one step. *)
Lemma ungrab_run cl c a h u t gl ws v :
  a !! "grab_exclusive_class" = Some v →
  a !! "grab_list" = Some (VRef gl) → h !! gl = Some (OList ws) →
  ungrab cl (mkState c a h u t) =
  Returns tt
    (mkState c
       (if eq_weakref cl v then <["grab_exclusive_class" := VNone]> a else a)
       (if existsb (eq_weakref cl) ws
        then <[gl := OList (remove_first cl ws)]> h else h)
       u t).
Proof.
  intros Hv Hgl Hws. unfold ungrab.
  destruct (eq_weakref cl v) eqn:Hc;
    destruct (existsb (eq_weakref cl) ws) eqn:Hin.
  all: exec_all; rewrite ?Hc, ?Hin; exec_all; rewrite ?Hin; exec_done.
Qed.

(** [grab] in one step, where it is granted. *)
Lemma grab_run cl exclusive c a h u t gl ws :
  a !! "is_touch" = Some (VBool true) →
  a !! "grab_exclusive_class" = Some VNone →
  a !! "grab_list" = Some (VRef gl) → h !! gl = Some (OList ws) →
  grab cl exclusive (mkState c a h u t) =
  Returns tt
    (mkState c
       (if exclusive then <["grab_exclusive_class" := VWeak cl]> a else a)
       (<[gl := OList (ws ++ [VWeak cl])]> h) u t).
Proof.
  intros Htouch Hex Hgl Hws. unfold grab. destruct exclusive; exec_done.
Qed.

Lemma granted_count s c :
  granted s c = negb (Nat.eqb (grant_count s c) 0).
Proof.
  unfold granted, grant_count. destruct (grab_list_of s); [|done].
  apply existsb_filter.
Qed.

(** ** The invariant *)

Ltac solve_elem :=
  repeat first [apply list_elem_of_here | apply list_elem_of_further].

Lemma init_settled cls counter now device id args s :
  __init__ device id args (new_object cls counter now) = Returns tt s →
  settled s.
Proof.
  destruct cls as [|name]; [discriminate|].
  unfold __init__, new_object, provider_depack, depack.
  cbn [self_class]. exec_all. intros <-%Returns_inj.
  split.
  1: done.
  1-7: unfold attr; cbn [attrs uniq_id]; solve_lookup.
  1-3: unfold normalized_delta, attr; cbn [attrs];
    do 2 eexists; split_and!; solve_lookup.
  intros c0. unfold exclusive_is, attr. cbn [attrs]. lookup_attr. done.
Qed.

Lemma kept_attr (names : list string) s s' name :
  Forall (λ name, attr s' name = attr s name) names →
  name ∈ names → attr s' name = attr s name.
Proof. intros H Hin. by eapply (proj1 (Forall_forall _ _) H). Qed.

Lemma kept_normalized_delta s s' cur prev delta :
  Forall (λ name, attr s' name = attr s name) normalized_attrs →
  cur ∈ normalized_attrs → prev ∈ normalized_attrs →
  delta ∈ normalized_attrs →
  normalized_delta s cur prev delta → normalized_delta s' cur prev delta.
Proof.
  intros H Hc Hp Hd (c & p & ? & ? & ?). exists c, p.
  rewrite !(kept_attr normalized_attrs s s') by done. done.
Qed.

Lemma granted_append s s' c :
  grab_list_of s' = (λ ws, ws ++ [VWeak c]) <$> grab_list_of s →
  is_Some (grab_list_of s) → granted s' c = true.
Proof.
  intros H [ws Hws]. unfold granted. rewrite H, Hws. cbn.
  rewrite existsb_app. cbn. rewrite Pos.eqb_refl. by rewrite orb_true_r.
Qed.

Lemma granted_remove_ne s s' c c' :
  grab_list_of s' = remove_first c <$> grab_list_of s → c' ≠ c →
  granted s' c' = granted s c'.
Proof.
  intros H Hne. rewrite !granted_count. unfold grant_count. rewrite H.
  destruct (grab_list_of s) as [ws|]; [|done]. cbn.
  by rewrite filter_remove_first_ne.
Qed.

Lemma wf_grab_list s : wf s → is_Some (grab_list_of s).
Proof.
  intros [_ _ _ _ _ (gl & sl & ws & st & _ & Hgl & Hws & _)].
  unfold grab_list_of, attr. rewrite Hgl, Hws. by eexists.
Qed.

Lemma run_settled op s : wf s → settled s → settled (state_of (run op s)).
Proof.
  intros Hwf [Hclass Huid Hend Hcur Hstate Hshape Htap Htime Hx Hy Hz Hex].
  destruct (run_call_effect op s Hwf) as (Hcls & Hid & Hu & Hnorm & Hgrab).
  set (s' := state_of (run op s)) in *.
  split.
  1: by rewrite Hcls.
  1-7: rewrite ?Hu;
    rewrite (kept_attr identity_attrs s s') by
      first [ assumption | unfold identity_attrs; solve_elem ]; done.
  1-3: destruct op; first
    [ by destruct Hnorm as (? & ? & ?)
    | eapply kept_normalized_delta;
      [ exact Hnorm | unfold normalized_attrs; solve_elem .. | done ] ].
  intros c0 Hc0. unfold exclusive_is in *.
  destruct op as [| | | |cl excl|cl| |].
  5: { destruct Hgrab as [->|(Hnone & Hlist & Hex')]; [by apply Hex|].
       rewrite Hex' in Hc0. destruct excl; [|done].
       injection Hc0 as <-. eapply granted_append; [done|].
       by apply wf_grab_list. }
  5: { destruct Hgrab as [Hlist Hex'].
       rewrite Hex' in Hc0. unfold exclusive_after_ungrab in Hc0.
       destruct (attr s "grab_exclusive_class") as [v|] eqn:Hv; [|done].
       destruct (eq_weakref cl v) eqn:Hcl; [done|].
       injection Hc0 as ->.
       rewrite (granted_remove_ne s s' cl c0); [by apply Hex|done|].
       intros ->. cbn [eq_weakref] in Hcl. by rewrite Pos.eqb_refl in Hcl. }
  all: destruct Hgrab as [Hex' Hlist]; rewrite Hex' in Hc0.
  all: unfold granted; rewrite Hlist; by apply Hex.
Qed.

Lemma reachable_settled s : reachable s → settled s.
Proof.
  induction 1 as [cls counter now device id args s Hinit|op s Hs IH|now s _ IH].
  - by eapply init_settled.
  - apply run_settled; [by apply reachable_wf|done].
  - destruct s. by destruct IH.
Qed.

(** ** The numbering of events *)

(** Property X1.  [__init__] on an object of the class [MotionEvent] itself
    raises [NotImplementedError] before anything else: the counter of the
    class is not advanced and no attribute is assigned. No event a provider
    constructed is therefore of the class [MotionEvent], whatever was called
    on it since. *)
Theorem abstract_class_not_constructed :
  (∀ device id args counter now,
     __init__ device id args (new_object MotionEvent counter now) =
     Raises (NotImplementedError "class MotionEvent is abstract")
       (new_object MotionEvent counter now)) ∧
  (∀ s, reachable s → self_class s ≠ MotionEvent).
Proof.
  split; [done|]. intros s Hs%reachable_settled. by apply settled_class.
Qed.

Lemma init_uid name counter now device id args s :
  __init__ device id args (new_object (Subclass name) counter now)
  = Returns tt s →
  uniq_id s = counter + 1 ∧ attr s "uid" = Some (VInt (counter + 1)).
Proof.
  unfold __init__, new_object, provider_depack, depack.
  cbn [self_class]. exec_all. intros <-%Returns_inj.
  unfold attr. cbn [attrs uniq_id]. split; solve_lookup.
Qed.

(** Property X2.  [__init__] on an object of a subclass returns; it advances
    the counter of the class by one and gives the event the new value as
    [uid], stores [device] and [id] as they are passed, stamps [time_start]
    and [time_update] with the time of the call and [time_end] with [-1], and
    gives the event an empty snapshot stack and an empty [grab_list] of its
    own, with no exclusive claimant. *)
Theorem fresh_event_identity name counter now device id args :
  ∃ s,
    __init__ device id args (new_object (Subclass name) counter now)
    = Returns tt s ∧
    uniq_id s = counter + 1 ∧
    attr s "uid" = Some (VInt (counter + 1)) ∧
    attr s "device" = Some device ∧ attr s "id" = Some id ∧
    attr s "time_start" = Some (VFloat now) ∧
    attr s "time_update" = Some (VFloat now) ∧
    attr s "time_end" = Some (VInt (-1)) ∧
    stack_of s = Some [] ∧ grab_list_of s = Some [] ∧
    attr s "push_attrs_stack" ≠ attr s "grab_list" ∧
    attr s "grab_exclusive_class" = Some VNone.
Proof.
  eexists. split.
  { unfold __init__, new_object, provider_depack, depack. exec_all. }
  unfold stack_of, grab_list_of, attr. cbn [attrs uniq_id heap].
  split_and!; lookup_attr; first [reflexivity | discriminate].
Qed.

(** Property X3.  Two events constructed one after the other, of whatever
    subclasses and with whatever payloads, get consecutive [uid]s: the second
    [uid] is the first plus one. *)
Theorem successive_events_numbered
    name1 name2 counter now1 now2 device1 device2 id1 id2 args1 args2 s1 s2 :
  __init__ device1 id1 args1 (new_object (Subclass name1) counter now1)
  = Returns tt s1 →
  __init__ device2 id2 args2 (new_object (Subclass name2) (uniq_id s1) now2)
  = Returns tt s2 →
  ∃ uid,
    attr s1 "uid" = Some (VInt uid) ∧ attr s2 "uid" = Some (VInt (uid + 1)).
Proof.
  intros H1 H2. exists (counter + 1).
  apply init_uid in H1 as [Hu1 Huid1], H2 as [Hu2 Huid2].
  by rewrite Huid1, Huid2, Hu1.
Qed.

Lemma successive_events_numbered_witness :
  __init__ (VStr "mouse") (VInt 1) touch_args
    (new_object (Subclass "MouseMotionEvent") 0 0%float)
  = Returns tt fresh_touch ∧
  __init__ (VStr "mouse") (VInt 2) drag_args
    (new_object (Subclass "MouseMotionEvent") (uniq_id fresh_touch) 1%float)
  = Returns tt second_touch ∧
  ∃ uid,
    attr fresh_touch "uid" = Some (VInt uid) ∧
    attr second_touch "uid" = Some (VInt (uid + 1)).
Proof.
  assert (__init__ (VStr "mouse") (VInt 1) touch_args
            (new_object (Subclass "MouseMotionEvent") 0 0%float)
          = Returns tt fresh_touch) as H1 by by vm_compute.
  assert (__init__ (VStr "mouse") (VInt 2) drag_args
            (new_object (Subclass "MouseMotionEvent") (uniq_id fresh_touch)
               1%float)
          = Returns tt second_touch) as H2 by by vm_compute.
  exact (conj H1 (conj H2
           (successive_events_numbered _ _ _ _ _ _ _ _ _ _ _ _ _ H1 H2))).
Defined.

Lemma grabbed_touch_reachable : reachable grabbed_touch.
Proof. apply reach_call, fresh_touch_reachable. Qed.



Section normalized_space.
Local Open Scope float_scope.

(** Property X5.  On every event a provider constructed, after any calls, each
    normalized delta is the float difference of the current and the previous
    normalized coordinate: [dsx = sx - psx], [dsy = sy - psy], [dsz = sz -
    psz]. *)
Theorem normalized_delta_invariant s :
  reachable s →
  ∃ sx sy sz psx psy psz,
    attr s "sx" = Some (VFloat sx) ∧ attr s "psx" = Some (VFloat psx) ∧
    attr s "sy" = Some (VFloat sy) ∧ attr s "psy" = Some (VFloat psy) ∧
    attr s "sz" = Some (VFloat sz) ∧ attr s "psz" = Some (VFloat psz) ∧
    attr s "dsx" = Some (VFloat (sx - psx)) ∧
    attr s "dsy" = Some (VFloat (sy - psy)) ∧
    attr s "dsz" = Some (VFloat (sz - psz)).
Proof.
  intros [_ _ _ _ _ _ _ _ Hx Hy Hz _]%reachable_settled.
  destruct Hx as (sx & psx & ? & ? & ?), Hy as (sy & psy & ? & ? & ?),
    Hz as (sz & psz & ? & ? & ?).
  exists sx, sy, sz, psx, psy, psz. done.
Qed.

Lemma normalized_delta_invariant_witness :
  reachable released_touch ∧
  ∃ sx sy sz psx psy psz,
    attr released_touch "sx" = Some (VFloat sx) ∧
    attr released_touch "psx" = Some (VFloat psx) ∧
    attr released_touch "sy" = Some (VFloat sy) ∧
    attr released_touch "psy" = Some (VFloat psy) ∧
    attr released_touch "sz" = Some (VFloat sz) ∧
    attr released_touch "psz" = Some (VFloat psz) ∧
    attr released_touch "dsx" = Some (VFloat (sx - psx)) ∧
    attr released_touch "dsy" = Some (VFloat (sy - psy)) ∧
    attr released_touch "dsz" = Some (VFloat (sz - psz)).
Proof.
  assert (reachable released_touch) as H
    by apply reach_call, dragged_touch_reachable.
  exact (conj H (normalized_delta_invariant released_touch H)).
Defined.

End normalized_space.

(** Property X6.  On every event a provider constructed, after any calls, the
    claimant recorded in [grab_exclusive_class] is in [grab_list]. *)
Theorem exclusive_claimant_granted s c :
  reachable s → exclusive_is s c → granted s c = true.
Proof. intros H%reachable_settled. by apply settled_exclusive. Qed.

Lemma exclusive_claimant_granted_witness :
  reachable grabbed_touch ∧ exclusive_is grabbed_touch 7%positive ∧
  granted grabbed_touch 7%positive = true.
Proof.
  assert (exclusive_is grabbed_touch 7%positive) as H by by vm_compute.
  exact (conj grabbed_touch_reachable
           (conj H (exclusive_claimant_granted grabbed_touch 7%positive
                      grabbed_touch_reachable H))).
Defined.

(** Property X7.  On every event a provider constructed, [ungrab(c)] returns:
    it takes one occurrence of [c] out of [grab_list] when there is one and
    none otherwise, leaves the occurrences of every other claimant, and
    changes no attribute but [grab_exclusive_class]. *)
Theorem ungrab_counts s c :
  reachable s →
  ∃ s',
    ungrab c s = Returns tt s' ∧
    grant_count s' c = Nat.pred (grant_count s c) ∧
    (∀ c', c' ≠ c → grant_count s' c' = grant_count s c') ∧
    (∀ name, name ≠ "grab_exclusive_class" → attr s' name = attr s name).
Proof.
  intros Hwf%reachable_wf. destruct s as [cls a h u t].
  destruct Hwf as [_ _ _ Hex _ (gl & sl & ws & st & Hne & Hgl & Hws & _)].
  cbn [attrs heap] in *.
  assert (∃ v, a !! "grab_exclusive_class" = Some v) as [v Hv]
    by (destruct Hex as [?|[? ?]]; eauto).
  eexists. split; [by eapply ungrab_run|].
  assert (∀ a', a' !! "grab_list" = Some (VRef gl) →
            grab_list_of
              (mkState cls a'
                 (if existsb (eq_weakref c) ws
                  then <[gl := OList (remove_first c ws)]> h else h) u t)
            = Some (if existsb (eq_weakref c) ws
                    then remove_first c ws else ws)) as Hlist.
  { intros a' Ha'. destruct (existsb (eq_weakref c) ws).
    - by eapply grab_list_of_insert_eq.
    - by eapply grab_list_of_eq. }
  assert ((if eq_weakref c v then <["grab_exclusive_class" := VNone]> a
           else a) !! "grab_list" = Some (VRef gl)) as Hgl'.
  { destruct (eq_weakref c v); [|done]. by rewrite lookup_insert_ne. }
  unfold grant_count. rewrite (Hlist _ Hgl').
  erewrite grab_list_of_eq by done.
  split_and!.
  - destruct (existsb (eq_weakref c) ws) eqn:Hin.
    + apply filter_remove_first.
    + rewrite existsb_filter in Hin.
      by destruct (length (List.filter (eq_weakref c) ws)).
  - intros c' Hc'. destruct (existsb (eq_weakref c) ws); [|done].
    by rewrite filter_remove_first_ne.
  - intros name Hname. unfold attr. cbn [attrs].
    destruct (eq_weakref c v); [|done]. by rewrite lookup_insert_ne.
Qed.

Lemma ungrab_counts_witness :
  reachable grabbed_touch ∧
  ∃ s',
    ungrab 7%positive grabbed_touch = Returns tt s' ∧
    grant_count s' 7%positive =
      Nat.pred (grant_count grabbed_touch 7%positive) ∧
    (∀ c', c' ≠ 7%positive →
           grant_count s' c' = grant_count grabbed_touch c') ∧
    (∀ name, name ≠ "grab_exclusive_class" →
             attr s' name = attr grabbed_touch name).
Proof.
  exact (conj grabbed_touch_reachable
           (ungrab_counts grabbed_touch 7%positive grabbed_touch_reachable)).
Defined.

(** Property X8.  On every event a provider constructed, [ungrab(c)] for a
    claimant that is not in [grab_list] returns and leaves the event exactly
    as it was: the membership test keeps [list.remove] from raising. *)
Theorem ungrab_ungranted_noop s c :
  reachable s → granted s c = false → ungrab c s = Returns tt s.
Proof.
  intros Hs Hc. pose proof (reachable_wf s Hs) as Hwf.
  pose proof (reachable_settled s Hs) as Hset.
  assert (¬ exclusive_is s c) as Hnot.
  { intros Hex. apply (settled_exclusive s Hset) in Hex. congruence. }
  destruct s as [cls a h u t].
  destruct Hwf as [_ _ _ Hex _ (gl & sl & ws & st & Hne & Hgl & Hws & _)].
  cbn [attrs heap] in *.
  unfold granted in Hc. erewrite grab_list_of_eq in Hc by done.
  unfold exclusive_is, attr in Hnot. cbn [attrs] in Hnot.
  assert (∃ v, a !! "grab_exclusive_class" = Some v ∧
               eq_weakref c v = false) as (v & Hv & Hcv).
  { destruct Hex as [Hex|[c' Hex]]; [by eexists|].
    exists (VWeak c'). split; [done|]. cbn [eq_weakref].
    apply Pos.eqb_neq. intros ->. done. }
  erewrite ungrab_run by done. by rewrite Hcv, Hc.
Qed.

Lemma ungrab_ungranted_noop_witness :
  reachable grabbed_touch ∧ granted grabbed_touch 8%positive = false ∧
  ungrab 8%positive grabbed_touch = Returns tt grabbed_touch.
Proof.
  assert (granted grabbed_touch 8%positive = false) as H by by vm_compute.
  exact (conj grabbed_touch_reachable
           (conj H (ungrab_ungranted_noop grabbed_touch 8%positive
                      grabbed_touch_reachable H))).
Defined.

(** Property X9.  On every event a provider constructed, a [grab] that is
    granted to a claimant that was not in [grab_list], exclusive or not, is
    undone by the [ungrab] of the claimant: the event is then exactly as it
    was before the [grab]. *)
Theorem grab_ungrab_round_trip s c exclusive s1 :
  reachable s → granted s c = false →
  grab c exclusive s = Returns tt s1 →
  ungrab c s1 = Returns tt s.
Proof.
  intros Hwf%reachable_wf Hc. destruct s as [cls a h u t].
  destruct Hwf as
    [_ _ [b Htouch] Hex _ (gl & sl & ws & st & Hne & Hgl & Hws & _)].
  cbn [attrs heap] in *.
  unfold granted in Hc. erewrite grab_list_of_eq in Hc by done.
  destruct b.
  2: { unfold grab. exec_all. discriminate. }
  destruct Hex as [Hex|[c' Hex]].
  2: { unfold grab. exec_all. discriminate. }
  erewrite grab_run by done. intros <-%Returns_inj.
  assert (gl < length h)%nat as Hlt by by eapply lookup_lt_Some.
  assert (existsb (eq_weakref c) (ws ++ [VWeak c]) = true) as Hin.
  { rewrite existsb_app. cbn. by rewrite Pos.eqb_refl, orb_true_r. }
  destruct exclusive.
  - erewrite ungrab_run;
      [| by apply lookup_insert_eq | by rewrite lookup_insert_ne
       | by apply list_lookup_insert_eq ].
    cbn [eq_weakref]. rewrite Pos.eqb_refl, Hin.
    rewrite insert_insert_eq, (insert_id a) by done.
    rewrite remove_first_snoc by done.
    by rewrite list_insert_insert_eq, list_insert_id.
  - erewrite ungrab_run; [| done | done | by apply list_lookup_insert_eq ].
    cbn [eq_weakref]. rewrite Hin.
    rewrite remove_first_snoc by done.
    by rewrite list_insert_insert_eq, list_insert_id.
Qed.

Lemma grab_ungrab_round_trip_witness :
  reachable fresh_touch ∧ granted fresh_touch 7%positive = false ∧
  grab 7%positive true fresh_touch = Returns tt grabbed_touch ∧
  ungrab 7%positive grabbed_touch = Returns tt fresh_touch.
Proof.
  assert (granted fresh_touch 7%positive = false) as H by by vm_compute.
  assert (grab 7%positive true fresh_touch = Returns tt grabbed_touch)
    as Hgrab by by vm_compute.
  exact (conj fresh_touch_reachable
           (conj H (conj Hgrab
              (grab_ungrab_round_trip fresh_touch 7%positive true
                 grabbed_touch fresh_touch_reachable H Hgrab)))).
Defined.

(** Property X10.  On every event a provider constructed that a claimant [c]
    holds exclusively, the [ungrab] of any other claimant leaves the exclusive
    grab with [c], and the [ungrab] of [c] clears it. *)
Theorem exclusive_released_by_owner_only s c :
  reachable s → exclusive_is s c →
  (∀ c', c' ≠ c → exclusive_is (state_of (ungrab c' s)) c) ∧
  attr (state_of (ungrab c s)) "grab_exclusive_class" = Some VNone.
Proof.
  intros Hwf%reachable_wf Hc. unfold exclusive_is in *. split.
  - intros c' Hc'.
    destruct (run_call_effect (OpUngrab c') s Hwf) as (_ & _ & _ & _ & _ & H).
    cbn [run] in H. rewrite H, Hc.
    cbn [exclusive_after_ungrab eq_weakref].
    by rewrite (proj2 (Pos.eqb_neq c c')).
  - destruct (run_call_effect (OpUngrab c) s Hwf) as (_ & _ & _ & _ & _ & H).
    cbn [run] in H. rewrite H, Hc.
    cbn [exclusive_after_ungrab eq_weakref]. by rewrite Pos.eqb_refl.
Qed.

Lemma exclusive_released_by_owner_only_witness :
  reachable grabbed_touch ∧ exclusive_is grabbed_touch 7%positive ∧
  (∀ c', c' ≠ 7%positive →
         exclusive_is (state_of (ungrab c' grabbed_touch)) 7%positive) ∧
  attr (state_of (ungrab 7%positive grabbed_touch)) "grab_exclusive_class"
  = Some VNone.
Proof.
  assert (exclusive_is grabbed_touch 7%positive) as H by by vm_compute.
  exact (conj grabbed_touch_reachable
           (conj H (exclusive_released_by_owner_only grabbed_touch
                      7%positive grabbed_touch_reachable H))).
Defined.

(** ** Projection and transformation *)





Section depth.
Local Open Scope float_scope.





End depth.

(** ** Snapshots *)

(** Proves that assignments which give attributes of [a] the values they
    have in [a], after whatever other assignments to them, amount to [a]. *)
Ltac restore_map :=
  apply map_eq; intros k; repeat rewrite lookup_insert_eqb;
  repeat match goal with
  | |- context [String.eqb ?n k] =>
      destruct (String.eqb_spec n k) as [<-|?];
      [ eqb_strings; cbv beta iota;
        first [reflexivity | symmetry; assumption | congruence]
      | cbv beta iota ]
  end; reflexivity.

Ltac solve_push_pop :=
  f_equal;
  [ restore_map
  | rewrite list_insert_insert_eq; apply list_insert_id; assumption ].

Lemma push_transform_pop transform s :
  wf s →
  ∃ s1 o s3,
    push None s = Returns tt s1 ∧
    apply_transform_2d transform s1 = o ∧
    pop (state_of o) = Returns tt s3 ∧
    s3 = s.
Proof.
  intros H. destruct s as [c a h u t]. destruct_wf H.
  all: do 3 eexists; split_and!;
    [ unfold push, default_push_attrs in *; exec_all
    | unfold apply_transform_2d; exec_done
    | cbn [state_of]; unfold pop; exec_all
    | solve_push_pop ].
Qed.

Lemma push_scale_pop w hh p rotation s :
  wf s →
  ∃ s1 o s3,
    push None s = Returns tt s1 ∧
    scale_for_screen w hh p rotation s1 = o ∧
    pop (state_of o) = Returns tt s3 ∧
    s3 = s.
Proof.
  intros H. destruct s as [c a h u t]. destruct_wf H.
  all: unfold scale_for_screen, py_float.
  all: destruct (rotation =? 0)%Z; [|destruct (rotation =? 90)%Z;
         [|destruct (rotation =? 180)%Z; [|destruct (rotation =? 270)%Z]]].
  all: destruct p as [p|]; [destruct (PrimFloat.eqb p 0) eqn:Hp|].
  all: do 3 eexists; split_and!;
    [ unfold push, default_push_attrs in *; exec_all
    | exec_all; rewrite ?Hp; exec_done
    | cbn [state_of]; unfold pop; exec_all
    | solve_push_pop ].
Qed.

(** Property X14.  On every event a provider constructed, [push()] followed by
    [scale_for_screen] or [apply_transform_2d], whether that call returns or
    raises, followed by [pop()], leaves the event exactly as it was before the
    [push()]: every attribute, and the snapshot stack. *)
Theorem push_pop_undoes_screen_call s op :
  reachable s → screen_call op = true →
  ∃ s1, push None s = Returns tt s1 ∧
        pop (state_of (run op s1)) = Returns tt s.
Proof.
  intros Hwf%reachable_wf Hop.
  destruct op as [| |w h p rotation|transform| | | |]; try done; cbn [run].
  - destruct (push_scale_pop w h p rotation s Hwf)
      as (s1 & o & s3 & ? & <- & ? & <-). eauto.
  - destruct (push_transform_pop transform s Hwf)
      as (s1 & o & s3 & ? & <- & ? & <-). eauto.
Qed.

Lemma push_pop_undoes_screen_call_witness :
  reachable projected_touch ∧
  ∃ s1, push None projected_touch = Returns tt s1 ∧
        pop (state_of (run (OpTransform to_local) s1))
        = Returns tt projected_touch.
Proof.
  exact (conj projected_touch_reachable
           (push_pop_undoes_screen_call projected_touch
              (OpTransform to_local) projected_touch_reachable eq_refl)).
Defined.




(** Property X16.  On every event a provider constructed, [pop()] with a
    snapshot on the stack returns: it takes the last snapshot off the stack,
    makes the screen attributes those the snapshot recorded, and changes no
    other attribute. *)
Theorem pop_restores_last_snapshot s st e :
  reachable s → stack_of s = Some (st ++ [e]) →
  ∃ s',
    pop s = Returns tt s' ∧
    stack_of s' = Some st ∧
    snapshot_of (attrs s') = e ∧
    (∀ name, name ∉ default_push_attrs → attr s' name = attr s name).
Proof.
  intros H%reachable_wf (sl & Hsl & Hst)%stack_of_inv.
  destruct s as [c a h u t]. destruct_wf H.
  all: match goal with
       | Hst : Forall snapshot_ok _ |- _ =>
           apply Forall_app in Hst as [Hst' Htop];
           apply Forall_singleton in Htop as (a0 & Hok & ->)
       end.
  all: destruct_screen_ok Hok.
  all: eexists; split_and!;
    [ unfold pop; exec_all; unfold snapshot_of, default_push_attrs;
      exec_all;
      repeat match goal with
      | H : ?a !! ?k = _ |- context [?a !! ?k] => rewrite H
      end; cbn [default]; exec_done
    | unfold stack_of, attr; cbn [attrs heap]; lookup_attr;
      by rewrite list_lookup_insert_eq by by eapply lookup_lt_Some
    | unfold snapshot_of, default_push_attrs; cbn [attrs fmap list_fmap];
      lookup_attr;
      repeat match goal with
      | H : ?a !! ?k = _ |- context [?a !! ?k] => rewrite H
      end; reflexivity
    | intros name Hname; unfold attr, default_push_attrs in *; cbn [attrs];
      rewrite !lookup_insert_ne; [done|..];
      intros <-; apply Hname; solve_elem ].
Qed.

Lemma pop_restores_last_snapshot_witness :
  reachable pushed_touch ∧
  stack_of pushed_touch = Some ([] ++ [snapshot_of (attrs projected_touch)]) ∧
  ∃ s',
    pop pushed_touch = Returns tt s' ∧
    stack_of s' = Some [] ∧
    snapshot_of (attrs s') = snapshot_of (attrs projected_touch) ∧
    (∀ name, name ∉ default_push_attrs →
             attr s' name = attr pushed_touch name).
Proof.
  assert (reachable pushed_touch) as H
    by apply reach_call, projected_touch_reachable.
  assert (stack_of pushed_touch =
          Some ([] ++ [snapshot_of (attrs projected_touch)])) as Hst
    by by vm_compute.
  exact (conj H (conj Hst
           (pop_restores_last_snapshot pushed_touch []
              (snapshot_of (attrs projected_touch)) H Hst))).
Defined.

(** ** is_mouse_scrolling *)

Lemma starts_with_spec needle hay :
  starts_with needle hay = true ↔ ∃ post, hay = String.append needle post.
Proof.
  revert hay. induction needle as [|a needle IH]; intros hay.
  - cbn. split; [by exists hay|done].
  - destruct hay as [|b hay]; cbn [starts_with String.append].
    + split; [done|]. by intros [post ?].
    + rewrite andb_true_iff, IH. split.
      * intros [->%Ascii.eqb_eq [post ->]]. by exists post.
      * intros [post [= -> ->]]. split; [apply Ascii.eqb_refl|by exists post].
Qed.

Lemma str_contains_spec needle hay :
  str_contains needle hay = true ↔
  ∃ pre post, hay = String.append pre (String.append needle post).
Proof.
  induction hay as [|b hay IH]; cbn [str_contains].
  - rewrite orb_false_r, starts_with_spec. split.
    + intros [post ->]. by exists EmptyString, post.
    + intros (pre & post & H). destruct pre; [by exists post|done].
  - rewrite orb_true_iff, starts_with_spec, IH. split.
    + intros [[post ->]|(pre & post & ->)].
      * by exists EmptyString, post.
      * by exists (String b pre), post.
    + intros (pre & post & H). destruct pre as [|a pre].
      * left. by exists post.
      * right. injection H as -> ->. by exists pre, post.
Qed.

(** Property X17.  When the profile of the event is a list that does not name
    [button], [is_mouse_scrolling] is [False] and the attribute [button] is
    not read: there is no [AttributeError] on an event that has none. *)
Theorem is_mouse_scrolling_short_circuit s l vs :
  attr s "profile" = Some (VRef l) → heap s !! l = Some (OList vs) →
  VStr "button" ∉ vs →
  is_mouse_scrolling s = Returns (VBool false) s.
Proof.
  destruct s as [c a h u t]. unfold attr. cbn [attrs heap].
  intros Hp Hl Hvs. unfold is_mouse_scrolling.
  erewrite bind_returns by by apply run_getattr.
  assert (existsb (key_is "button") vs = false) as Hin.
  { apply not_true_iff_false. intros (v & Hv & Hkey)%existsb_exists.
    apply Hvs. apply list_elem_of_In.
    destruct v; try done. cbn [key_is] in Hkey.
    by apply String.eqb_eq in Hkey as ->. }
  assert (contains_str (VRef l) "button" (mkState c a h u t)
          = Returns false (mkState c a h u t)) as Hc.
  { unfold contains_str. cbn [heap]. by rewrite Hl, Hin. }
  by erewrite bind_returns by exact Hc.
Qed.

Lemma is_mouse_scrolling_short_circuit_witness :
  attr fresh_touch "profile" = Some (VRef 2%nat) ∧
  heap fresh_touch !! 2%nat = Some (OList []) ∧
  (VStr "button" ∉ @nil Value) ∧
  attr fresh_touch "button" = None ∧
  is_mouse_scrolling fresh_touch = Returns (VBool false) fresh_touch.
Proof.
  assert (attr fresh_touch "profile" = Some (VRef 2%nat)) as Hp
    by by vm_compute.
  assert (heap fresh_touch !! 2%nat = Some (OList [])) as Hl
    by by vm_compute.
  assert (attr fresh_touch "button" = None) as Hb by by vm_compute.
  assert (VStr "button" ∉ @nil Value) as Hvs
    by exact (proj1 (elem_of_nil (VStr "button"))).
  exact (conj Hp (conj Hl (conj Hvs (conj Hb
           (is_mouse_scrolling_short_circuit fresh_touch 2%nat [] Hp Hl
              Hvs))))).
Defined.

(** Property X18.  When the profile of the event is a list that names [button]
    and the button is a string, [is_mouse_scrolling] is [True] exactly when
    [scroll] occurs somewhere in the name of the button; the event is left as
    it was. *)
Theorem is_mouse_scrolling_scroll_button s l vs button :
  attr s "profile" = Some (VRef l) → heap s !! l = Some (OList vs) →
  VStr "button" ∈ vs → attr s "button" = Some (VStr button) →
  ∃ r,
    is_mouse_scrolling s = Returns (VBool r) s ∧
    (r = true ↔
     ∃ pre post, button = String.append pre (String.append "scroll" post)).
Proof.
  destruct s as [c a h u t]. unfold attr. cbn [attrs heap].
  intros Hp Hl Hvs Hb. exists (str_contains "scroll" button).
  split; [|apply str_contains_spec].
  unfold is_mouse_scrolling.
  erewrite bind_returns by by apply run_getattr.
  assert (existsb (key_is "button") vs = true) as Hin.
  { apply existsb_exists. exists (VStr "button").
    split; [by apply list_elem_of_In|]. apply String.eqb_refl. }
  assert (contains_str (VRef l) "button" (mkState c a h u t)
          = Returns true (mkState c a h u t)) as Hc.
  { unfold contains_str. cbn [heap]. by rewrite Hl, Hin. }
  erewrite bind_returns by exact Hc. cbv beta iota.
  erewrite bind_returns by by apply run_getattr.
  reflexivity.
Qed.

Lemma is_mouse_scrolling_scroll_button_witness :
  attr wheel_event "profile" = Some (VRef 0%nat) ∧
  heap wheel_event !! 0%nat = Some (OList [VStr "pos"; VStr "button"]) ∧
  VStr "button" ∈ [VStr "pos"; VStr "button"] ∧
  attr wheel_event "button" = Some (VStr "scrolldown") ∧
  ∃ r,
    is_mouse_scrolling wheel_event = Returns (VBool r) wheel_event ∧
    (r = true ↔
     ∃ pre post,
       "scrolldown"%string = String.append pre (String.append "scroll" post)).
Proof.
  assert (attr wheel_event "profile" = Some (VRef 0%nat)) as Hp
    by by vm_compute.
  assert (heap wheel_event !! 0%nat
          = Some (OList [VStr "pos"; VStr "button"])) as Hl by by vm_compute.
  assert (attr wheel_event "button" = Some (VStr "scrolldown")) as Hb
    by by vm_compute.
  assert (VStr "button" ∈ [VStr "pos"; VStr "button"]) as Hvs
    by apply list_elem_of_further, list_elem_of_here.
  exact (conj Hp (conj Hl (conj Hvs (conj Hb
           (is_mouse_scrolling_scroll_button wheel_event 0%nat
              [VStr "pos"; VStr "button"] "scrolldown" Hp Hl Hvs Hb))))).
Defined.

(** ** EnhancedDictionnary *)









(** ** The manifest of attributes and copy_to *)

Lemma inherited_attrs acc (bases : list (option (list string))) :
  foldl (λ acc base,
           match base with
           | Some base_attrs => acc ++ base_attrs
           | None => acc
           end) acc bases
  = acc ++ concat (omap id bases).
Proof.
  revert acc. induction bases as [|[b|] bases IH]; intros acc;
    cbn [foldl omap concat id].
  - by rewrite app_nil_r.
  - rewrite IH. cbn. by rewrite app_assoc.
  - apply IH.
Qed.

(** Property X21.  The [__attrs__] the metaclass gives a class are the
    [__attrs__] of its bases, in the order of the bases and skipping the bases
    that have none, followed by the [__attrs__] the class declares, if any: a
    subclass of [MotionEvent] that declares [own] gets the manifest of
    [MotionEvent] followed by [own], and one that declares none gets the
    manifest of [MotionEvent]. *)
Theorem metaclass_attrs_cumulative bases attrs own :
  MotionEventMetaclass_new bases attrs =
    concat (omap id bases) ++ default [] attrs ∧
  MotionEvent__attrs__ = MotionEvent_attrs ∧
  MotionEventMetaclass_new [Some MotionEvent__attrs__] (Some own) =
    MotionEvent_attrs ++ own ∧
  MotionEventMetaclass_new [Some MotionEvent__attrs__] None =
    MotionEvent_attrs.
Proof.
  assert (∀ bases attrs,
            MotionEventMetaclass_new bases attrs =
            concat (omap id bases) ++ default [] attrs) as H.
  { intros bs o. unfold MotionEventMetaclass_new.
    rewrite inherited_attrs. cbn [app].
    destruct o; cbn [default]; [done|by rewrite app_nil_r]. }
  split_and!; [apply H|reflexivity..].
Qed.

Lemma copyable_cons name names s :
  copyable (name :: names) s = true →
  (∃ v, attr s name = Some v ∧
        ∀ l, v = VRef l → is_Some (heap s !! l)) ∧
  copyable names s = true.
Proof.
  unfold copyable. cbn [forallb]. intros [Hname Hnames]%andb_true_iff.
  split; [|done]. destruct (attr s name) as [v|]; [|done].
  exists v. split; [done|]. intros l ->. by apply bool_decide_eq_true in Hname.
Qed.

Lemma copyable_ref names s name l :
  copyable names s = true → name ∈ names → attr s name = Some (VRef l) →
  is_Some (heap s !! l).
Proof.
  induction names as [|n names IH]; intros H Hin Hname.
  - by apply elem_of_nil in Hin.
  - apply copyable_cons in H as [(v & Hv & Hl) Hnames].
    apply elem_of_cons in Hin as [->|Hin]; [|by apply IH].
    rewrite Hname in Hv. injection Hv as <-. by apply Hl.
Qed.

Lemma copyable_grown names c a h new u t :
  copyable names (mkState c a h u t) = true →
  copyable names (mkState c a (h ++ new) u t) = true.
Proof.
  unfold copyable, attr. cbn [attrs heap]. intros H.
  apply forallb_forall. intros name Hname.
  apply (proj1 (forallb_forall _ _) H) in Hname.
  destruct (a !! name) as [[| | | | | | |l|]|]; try done.
  apply bool_decide_eq_true in Hname as [o Ho].
  apply bool_decide_eq_true. exists o. by apply lookup_app_l_Some.
Qed.

Lemma copy_run c a h u t v :
  (∀ l, v = VRef l → is_Some (h !! l)) →
  ∃ v' new,
    copy v (mkState c a h u t) = Returns v' (mkState c a (h ++ new) u t) ∧
    copy_of h (h ++ new) v v' ∧
    ∀ new', copy_of h ((h ++ new) ++ new') v v'.
Proof.
  intros Hv.
  destruct v as [| | | | | | |l|];
    try (eexists _, []; rewrite app_nil_r; split_and!; by intros).
  destruct (Hv l eq_refl) as [o Ho].
  exists (VRef (length h)), [o]. unfold copy. cbn [heap]. rewrite Ho.
  split_and!; [done|..].
  - exists (length h). split_and!; [done|done|].
    rewrite Ho. by apply list_lookup_middle.
  - intros new'. exists (length h). split_and!; [done|done|].
    rewrite Ho, <- app_assoc. by apply list_lookup_middle.
Qed.

Lemma copy_of_grown h new new' v v' :
  (∀ l, v = VRef l → is_Some (h !! l)) →
  copy_of (h ++ new) ((h ++ new) ++ new') v v' →
  copy_of h (h ++ new ++ new') v v'.
Proof.
  intros Hv. destruct v as [| | | | | | |l|]; try done.
  intros (l' & -> & Hle & Hl'). exists l'.
  rewrite length_app in Hle. split_and!; [done|lia|].
  rewrite app_assoc, Hl'.
  destruct (Hv l eq_refl) as [o Ho]. rewrite Ho.
  by apply lookup_app_l_Some.
Qed.

(** [copy_to] in one step. *)
Lemma copy_to_run names to c a h u t :
  copyable names (mkState c a h u t) = true →
  ∃ to' new,
    copy_to names to (mkState c a h u t)
    = Returns to' (mkState c a (h ++ new) u t) ∧
    (∀ name, name ∉ names → to' !! name = to !! name) ∧
    (∀ name, name ∈ names →
       ∃ v v', a !! name = Some v ∧ to' !! name = Some v' ∧
               copy_of h (h ++ new) v v').
Proof.
  revert to h. induction names as [|n names IH]; intros to h Hc.
  - exists to, []. rewrite app_nil_r. split_and!; [done|done|].
    intros name Hname. by apply elem_of_nil in Hname.
  - pose proof Hc as Hall.
    apply copyable_cons in Hc as [(v & Hv & Hl) Hnames].
    unfold attr in Hv. cbn [attrs heap] in *.
    destruct (copy_run c a h u t v Hl) as (v' & new1 & Hcopy & Hof & Hof').
    destruct (IH (<[n := v']> to) (h ++ new1)
                (copyable_grown names c a h new1 u t Hnames))
      as (to' & new2 & Hrun & Hframe & Hcopies).
    exists to', (new1 ++ new2). split_and!.
    + cbn [copy_to].
      erewrite bind_returns by by apply run_getattr.
      erewrite bind_returns by exact Hcopy.
      by rewrite app_assoc.
    + intros name [Hne Hname]%not_elem_of_cons.
      by rewrite Hframe, lookup_insert_ne.
    + intros name Hname.
      destruct (decide (name ∈ names)) as [Hin|Hnotin].
      * destruct (Hcopies name Hin) as (w & w' & Hw & Hw' & Hwof).
        exists w, w'. split_and!; [done|done|].
        apply copy_of_grown; [|done].
        intros l ->. by eapply (copyable_ref _ _ name l Hall).
      * apply elem_of_cons in Hname as [->|?]; [|done].
        exists v, v'. split_and!; [done| |].
        -- by rewrite Hframe, lookup_insert_eq.
        -- rewrite app_assoc. apply Hof'.
Qed.

(** Property X22.  On an event whose manifest attributes are all there,
    [copy_to(to)] returns: each attribute of the manifest of [to] is the value
    the event has, and for a list or a dictionary a new object with the same
    items; the event and the objects it refers to are unchanged; every other
    attribute of [to] keeps the value it had, among them [pos], [uid],
    [grab_list], [grab_exclusive_class], [grab_state], [grab_current],
    [time_update] and [time_end], which the manifest does not name. *)
Theorem copy_to_copies_manifest s to :
  copyable MotionEvent__attrs__ s = true →
  ∃ to' s' new,
    copy_to MotionEvent__attrs__ to s = Returns to' s' ∧
    attrs s' = attrs s ∧ heap s' = heap s ++ new ∧
    (∀ name, name ∈ MotionEvent__attrs__ →
       ∃ v v', attr s name = Some v ∧ to' !! name = Some v' ∧
               copy_of (heap s) (heap s') v v') ∧
    (∀ name, name ∉ MotionEvent__attrs__ → to' !! name = to !! name) ∧
    Forall (λ name, to' !! name = to !! name)
      ["pos"; "uid"; "grab_list"; "grab_exclusive_class"; "grab_state";
       "grab_current"; "time_update"; "time_end"]%string.
Proof.
  destruct s as [c a h u t]. intros Hc.
  destruct (copy_to_run MotionEvent__attrs__ to c a h u t Hc)
    as (to' & new & Hrun & Hframe & Hcopies).
  exists to', (mkState c a (h ++ new) u t), new.
  split_and!; [done|done|done|done|done|].
  repeat first [apply Forall_nil_2 | apply Forall_cons_2].
  all: apply Hframe; vm_compute.
  all: intros Hin; repeat (apply elem_of_cons in Hin as [Hin|Hin]; [done|]).
  all: by apply elem_of_nil in Hin.
Qed.

Lemma copy_to_copies_manifest_witness :
  copyable MotionEvent__attrs__ projected_touch = true ∧
  ∃ to' s' new,
    copy_to MotionEvent__attrs__ (attrs fresh_touch) projected_touch
    = Returns to' s' ∧
    attrs s' = attrs projected_touch ∧
    heap s' = heap projected_touch ++ new ∧
    (∀ name, name ∈ MotionEvent__attrs__ →
       ∃ v v', attr projected_touch name = Some v ∧ to' !! name = Some v' ∧
               copy_of (heap projected_touch) (heap s') v v') ∧
    (∀ name, name ∉ MotionEvent__attrs__ →
       to' !! name = attrs fresh_touch !! name) ∧
    Forall (λ name, to' !! name = attrs fresh_touch !! name)
      ["pos"; "uid"; "grab_list"; "grab_exclusive_class"; "grab_state";
       "grab_current"; "time_update"; "time_end"]%string.
Proof.
  assert (copyable MotionEvent__attrs__ projected_touch = true) as H
    by by vm_compute.
  exact (conj H (copy_to_copies_manifest projected_touch (attrs fresh_touch)
                   H)).
Defined.
